(** * Hall sensor RPM counter: a shallow embedding of the Arduino sketch

    The sketch [hall-sensor-rpm-with-display.ino] targets the Arduino UNO
    (ATmega328, avr-gcc): [int] and [short] are 16 bits wide, [long] and
    [unsigned long] 32 bits, [byte] and [unsigned char] 8 bits, and both
    [float] and [double] are IEEE 754 binary32.  Integers are modelled as
    [Z] with the wrap-around written out, floating point numbers with the
    standard library's [spec_float] at precision 24. *)

From Stdlib Require Import ZArith List Bool Lia String Ascii Permutation.
From Stdlib Require Import QArith Qround DecimalString.
From Stdlib Require Import Floats.SpecFloat.
Import ListNotations.
Open Scope Z_scope.

(** ** Machine arithmetic *)

Module Avr.

(** Value of a 32-bit pattern read as [unsigned long]. *)
Definition ulong (x : Z) : Z := x mod 2 ^ 32.

(** Value of a 32-bit pattern read as [long] (two's complement). *)
Definition long (x : Z) : Z := (x + 2 ^ 31) mod 2 ^ 32 - 2 ^ 31.

(** Value of an 8-bit pattern read as [byte] / [unsigned char]. *)
Definition uchar (x : Z) : Z := x mod 2 ^ 8.

(** Value of an 8-bit pattern read as (signed) [char]. *)
Definition char (x : Z) : Z := (x + 2 ^ 7) mod 2 ^ 8 - 2 ^ 7.

Definition INT_MIN : Z := - 2 ^ 15.
Definition INT_MAX : Z := 2 ^ 15 - 1.

(** [abs] is the macro of Arduino.h, [((x)>0?(x):-(x))], here at type
    [long]: the negation wraps. *)
Definition abs_long (x : Z) : Z := if x >? 0 then x else long (- x).

(** The same macro at type [unsigned long]. *)
Definition abs_ulong (x : Z) : Z := if x >? 0 then x else ulong (- x).

End Avr.

(** ** Single precision floating point *)

Module F32.

Definition prec : Z := 24.
Definition emax : Z := 128.

Definition float : Type := spec_float.

(** Conversion of an integer, rounding to nearest even. *)
Definition of_Z (z : Z) : float := binary_normalize prec emax z 0 false.

Definition div (x y : float) : float := SFdiv prec emax x y.
Definition mul (x y : float) : float := SFmul prec emax x y.

(** Integral part of a finite float, rounding toward zero. *)
Definition trunc (s : bool) (m : positive) (e : Z) : Z :=
  let a := match e with
           | Zneg p => Z.shiftr (Zpos m) (Zpos p)
           | _ => Z.shiftl (Zpos m) e
           end in
  if s then - a else a.

(** The cast [(int)f].  C leaves the conversion undefined when the
    integral part does not fit the 16-bit [int], and for infinities and
    NaN: these give [None]. *)
Definition to_int (f : float) : option Z :=
  match f with
  | S754_zero _ => Some 0
  | S754_finite s m e =>
      let t := trunc s m e in
      if (Avr.INT_MIN <=? t) && (t <=? Avr.INT_MAX) then Some t else None
  | S754_infinity _ | S754_nan => None
  end.

End F32.

(** ** The RPM estimator *)

Definition MAX_STAMP_AGE : Z := 6000.
Definition MAX_STAMPS : nat := 5.

(** [tsDiff] of the scan loop:
    [abs((long)curTime - (long)(ts[i]))] stored in an [unsigned long].
    The difference of the two [long] values is taken modulo 2^32, which
    is what the subtraction instructions of the ATmega328 compute. *)
Definition tsDiff (curTime t : Z) : Z :=
  Avr.ulong (Avr.abs_long (Avr.long (Avr.long curTime - Avr.long t))).

(** The three variables the scan loop updates. *)
Record scan_state : Type := mkScan { low : Z; high : Z; datapoints : Z }.

(** One iteration of the scan loop on slot value [t]. *)
Definition scan_step (curTime : Z) (st : scan_state) (t : Z) : scan_state :=
  if tsDiff curTime t <? MAX_STAMP_AGE then
    let low' := if (low st =? 0) || (t <=? low st) then t else low st in
    let high' := if t >? high st then t else high st in
    mkScan low' high' (datapoints st + 1)
  else st.

(** The copy loop: [ts[i] = timestamps[i]] for [i < MAX_STAMPS], into an
    array cleared by [memset]. *)
Definition snapshot (timestamps : list Z) : list Z :=
  map (fun i => nth i timestamps 0) (seq 0 MAX_STAMPS).

(** The scan loop over the copied slots. *)
Definition scan (curTime : Z) (ts : list Z) : scan_state :=
  fold_left (fun st i => scan_step curTime st (nth i ts 0))
            (seq 0 MAX_STAMPS) (mkScan 0 0 0).

(** [timeDiff / 1000.0]: the elapsed time in seconds. *)
Definition elapsedSeconds (timeDiff : Z) : F32.float :=
  F32.div (F32.of_Z timeDiff) (F32.of_Z 1000).

(** [rps = revs / (timeDiff / 1000.0)]. *)
Definition rps_of (revs timeDiff : Z) : F32.float :=
  F32.div (F32.of_Z revs) (elapsedSeconds timeDiff).

(** [(int)(rps * 60.0)]. *)
Definition rpm_of (revs timeDiff : Z) : option Z :=
  F32.to_int (F32.mul (rps_of revs timeDiff) (F32.of_Z 60)).

(** [calculateRPM], as a function of the clock value read by [millis()]
    and of the ring of time stamps. *)
Definition calculateRPM (curTime : Z) (timestamps : list Z) : option Z :=
  let ts := snapshot timestamps in
  let st := scan curTime ts in
  if datapoints st >? 1 then
    let timeDiff := Avr.abs_ulong (Avr.ulong (high st - low st)) in
    let revs := datapoints st - 1 in
    rpm_of revs timeDiff
  else Some 0.


(** ** Vocabulary of the specification *)

(** A ring as the sketch declares it: [MAX_STAMPS] slots of type
    [unsigned long]. *)
Definition is_ulong (t : Z) : bool := (0 <=? t) && (t <? 2 ^ 32).

Definition ring_ok (timestamps : list Z) : bool :=
  (List.length timestamps =? MAX_STAMPS)%nat && forallb is_ulong timestamps.

(** Distance between two readings of the 32-bit millisecond clock. *)
Definition clock_distance (a b : Z) : Z :=
  Z.min ((a - b) mod 2 ^ 32) ((b - a) mod 2 ^ 32).

(** A slot is within the window when its age is below [MAX_STAMP_AGE]. *)
Definition in_window (now t : Z) : bool :=
  clock_distance now t <? MAX_STAMP_AGE.

Definition valid_stamps (now : Z) (ts : list Z) : list Z :=
  filter (in_window now) ts.

Definition minimum_of (l : list Z) : option Z :=
  match l with
  | [] => None
  | x :: l' => Some (fold_left Z.min l' x)
  end.

Definition maximum_of (l : list Z) : option Z :=
  match l with
  | [] => None
  | x :: l' => Some (fold_left Z.max l' x)
  end.

(** What the scan loop does with a slot it accepts. *)
Definition accept (st : scan_state) (t : Z) : scan_state :=
  mkScan (if (low st =? 0) || (t <=? low st) then t else low st)
         (Z.max (high st) t)
         (datapoints st + 1).

(** The exact quotient [revs / (timeDiff / 1000) * 60], rounded down. *)
Definition exact_rpm_floor (revs timeDiff : Z) : Z := revs * 60000 / timeDiff.

(** The single precision result is the exact quotient rounded down, or
    one less; it is undefined only when the quotient exceeds [INT_MAX]. *)
Definition rpm_accurate (revs timeDiff : Z) : bool :=
  match rpm_of revs timeDiff with
  | Some v =>
      (v =? exact_rpm_floor revs timeDiff)
      || (v =? exact_rpm_floor revs timeDiff - 1)
  | None => Avr.INT_MAX <? exact_rpm_floor revs timeDiff
  end.

(** The constants [1000.0] and [60.0], and the check of [rpm_accurate]
    for the four possible numbers of revolutions at once and over a range
    of intervals. *)
Definition thousand : F32.float := Eval vm_compute in F32.of_Z 1000.
Definition sixty : F32.float := Eval vm_compute in F32.of_Z 60.

Definition accurate_at (timeDiff : Z) : bool :=
  let seconds := F32.div (F32.of_Z timeDiff) thousand in
  forallb
    (fun revs =>
       match F32.to_int (F32.mul (F32.div (F32.of_Z revs) seconds) sixty) with
       | Some v =>
           (v =? exact_rpm_floor revs timeDiff)
           || (v =? exact_rpm_floor revs timeDiff - 1)
       | None => Avr.INT_MAX <? exact_rpm_floor revs timeDiff
       end)
    [1; 2; 3; 4].

Fixpoint accurate_from (n : nat) (timeDiff : Z) : bool :=
  match n with
  | O => true
  | S n' => accurate_at timeDiff && accurate_from n' (timeDiff + 1)
  end.

(** The formula of the specification, on exact rationals:
    [round (revolutions / elapsedSeconds * 60)], halves rounded up. *)
Definition spec_rpm (count lo hi : Z) : Z :=
  let revolutions := inject_Z (count - 1) in
  let elapsed := (inject_Z (hi - lo) / inject_Z 1000)%Q in
  Qfloor (revolutions / elapsed * inject_Z 60 + (1 # 2))%Q.


(** ** The display *)

(** Undefined behaviour (an access outside an array) is [None]. *)
Definition bind {A B : Type} (m : option A) (k : A -> option B) : option B :=
  match m with
  | Some a => k a
  | None => None
  end.

Notation "'do' x <- m ; k" := (bind m (fun x => k))
  (at level 10, x name, m at level 100, k at level 200).

Definition code (c : ascii) : Z := Z.of_N (N_of_ascii c).

(** The glyph table: pairs of a character and its segment byte, closed by
    the pair [0, 0]. *)
Definition CharBitMap : list Z :=
  [ code "0"; 0xC0;
    code "1"; 0xF9;
    code "2"; 0xA4;
    code "3"; 0xB0;
    code "4"; 0x99;
    code "5"; 0x92;
    code "6"; 0x82;
    code "7"; 0xF8;
    code "8"; 0x80;
    code "9"; 0x90;
    code "A"; 0x88;
    code "b"; 0x83;
    code "C"; 0xC6;
    code "d"; 0xA1;
    code "E"; 0x86;
    code "F"; 0x8e;
    code "P"; 0x8c;
    code "-"; 0xbf;
    code "c"; 0xa7;
    code " "; 0xff;
    0; 0 ].

Definition SCLK : Z := 8.
Definition RCLK : Z := 7.
Definition DIO : Z := 4.

Definition LOW : bool := false.
Definition HIGH : bool := true.

(** The inner loop of [SetupDigits]: the value of [i] when the loop is
    left, scanning the table from [bm] for the character [c]; [None] when
    the scan reads past the end of the table. *)
Fixpoint find_bitmap (bm : list Z) (c : Z) : option Z :=
  match bm with
  | [] => None
  | k :: tl =>
      if k =? 0 then Some 0
      else match tl with
           | [] => None
           | v :: rest => if k =? c then Some v else find_bitmap rest c
           end
  end.

(** The array [buf] with entry [i] replaced by [v]. *)
Definition update (buf : list Z) (i : nat) (v : Z) : list Z :=
  firstn i buf ++ v :: skipn (i + 1) buf.

(** [buf[i] = v] on an array of [length buf] entries. *)
Definition store (buf : list Z) (i : nat) (v : Z) : option (list Z) :=
  if (i <? List.length buf)%nat then Some (update buf i v) else None.

(** The outer loop of [SetupDigits], with [dispBM] the offset of the write
    pointer into [DisplayBM].  [s] is the memory from [p] on: the loop
    stops at its first NUL. *)
Fixpoint SetupDigits_from (s : string) (dispBM : nat) (buf : list Z)
  : option (list Z) :=
  match s with
  | EmptyString => Some buf
  | String a s' =>
      let c := Avr.char (code a) in
      if c =? 0 then Some buf
      else
        do i <- find_bitmap CharBitMap c;
        do buf' <- store buf dispBM i;
        SetupDigits_from s' (S dispBM) buf'
  end.

Definition SetupDigits (s : string) (DisplayBM : list Z) : option (list Z) :=
  SetupDigits_from s 0 DisplayBM.

(** The pin writes of [ShiftToDisplay], most significant bit first. *)
Fixpoint ShiftToDisplay_loop (i : nat) (c : Z) : list (Z * bool) :=
  match i with
  | O => []
  | S i' =>
      (DIO, if Z.land c 0x80 =? 0 then LOW else HIGH)
        :: (SCLK, LOW) :: (SCLK, HIGH)
        :: ShiftToDisplay_loop i' (Avr.uchar (Z.shiftl c 1))
  end.

Definition ShiftToDisplay (c : Z) : list (Z * bool) :=
  ShiftToDisplay_loop 8 c.

(** The digit select byte chosen by the [switch] of [DisplayDigitBitmap]. *)
Definition digit_select (pos : Z) : Z :=
  match pos with
  | 1 => 0x01
  | 2 => 0x02
  | 3 => 0x04
  | 4 => 0x08
  | _ => 0x01
  end.

Definition DisplayDigitBitmap (bm pos : Z) : list (Z * bool) :=
  [(RCLK, LOW)] ++ ShiftToDisplay bm ++ ShiftToDisplay (digit_select pos)
    ++ [(RCLK, HIGH)].

(** ** The state of the sketch *)

(** The global variables, and the two output channels: the text written
    to [Serial] and the calls of [digitalWrite], oldest first. *)
Record sketch : Type := mkSketch {
  DisplayBM : list Z;
  timestamps : list Z;
  curTimestampPos : Z;
  lastStamp : Z;
  oldRpm : Z;
  __curCharacter : Z;
  serial : string;
  pins : list (Z * bool)
}.

Definition set_DisplayBM (v : list Z) (sk : sketch) : sketch :=
  mkSketch v (timestamps sk) (curTimestampPos sk) (lastStamp sk) (oldRpm sk)
           (__curCharacter sk) (serial sk) (pins sk).

Definition set_oldRpm (v : Z) (sk : sketch) : sketch :=
  mkSketch (DisplayBM sk) (timestamps sk) (curTimestampPos sk) (lastStamp sk)
           v (__curCharacter sk) (serial sk) (pins sk).

Definition Serial_print (text : string) (sk : sketch) : sketch :=
  mkSketch (DisplayBM sk) (timestamps sk) (curTimestampPos sk) (lastStamp sk)
           (oldRpm sk) (__curCharacter sk) (serial sk ++ text)%string (pins sk).

Definition CRLF : string :=
  String (ascii_of_nat 13) (String (ascii_of_nat 10) EmptyString).

Definition Serial_println (text : string) (sk : sketch) : sketch :=
  Serial_print (text ++ CRLF)%string sk.

(** Decimal digits of a natural number, as [Print::print] and [sprintf]
    write them. *)
Definition decimal (n : Z) : string :=
  NilZero.string_of_uint (N.to_uint (Z.to_N n)).

(** What [Serial.println(int)] writes before the line end. *)
Definition print_int (n : Z) : string :=
  if n <? 0 then ("-" ++ decimal (- n))%string else decimal n.

Fixpoint zeros (k : nat) : string :=
  match k with
  | O => EmptyString
  | S k' => String "0" (zeros k')
  end.

(** The characters [sprintf] produces for the format [%.4d]: at least
    four digits, after the sign of a negative number. *)
Definition format_4d (n : Z) : string :=
  let digits := decimal (Z.abs n) in
  let padded := (zeros (4 - String.length digits) ++ digits)%string in
  if n <? 0 then ("-" ++ padded)%string else padded.

(** [sprintf(displayString, "%.4d", rpm)] into [char displayString[5]]:
    the characters and the closing NUL have to fit. *)
Definition sprintf_displayString (rpm : Z) : option string :=
  let text := format_4d rpm in
  if (String.length text <? 5)%nat then Some text else None.

(** [DisplayDigits]. *)
Definition DisplayDigits (sk : sketch) : sketch :=
  let cur := __curCharacter sk in
  let bm := nth (Z.to_nat (cur mod 4)) (DisplayBM sk) 0 in
  mkSketch (DisplayBM sk) (timestamps sk) (curTimestampPos sk) (lastStamp sk)
           (oldRpm sk) (Avr.uchar (cur + 1)) (serial sk)
           (pins sk ++ DisplayDigitBitmap bm (4 - cur mod 4)).

(** One pass through the [while (1)] of [loop], [curTime] being the value
    [millis()] returns inside [calculateRPM]. *)
Definition loop_body (curTime : Z) (sk : sketch) : option sketch :=
  do rpm <- calculateRPM curTime (timestamps sk);
  do sk' <-
    (if negb (rpm =? oldRpm sk) then
       let sk1 := set_oldRpm rpm sk in
       let sk2 := Serial_print "rpm: " sk1 in
       let sk3 := Serial_println (print_int rpm) sk2 in
       do displayString <- sprintf_displayString rpm;
       do bm <- SetupDigits displayString (DisplayBM sk3);
       Some (set_DisplayBM bm sk3)
     else Some sk);
  Some (DisplayDigits sk').

(** [rpmInterrupt], [now] being the value of [millis()] while the handler
    runs. *)
Definition rpmInterrupt (now : Z) (sk : sketch) : option sketch :=
  let pos := curTimestampPos sk in
  do ts' <- (if pos <? 0 then None
             else store (timestamps sk) (Z.to_nat pos) now);
  let pos' := if pos + 1 >=? Z.of_nat MAX_STAMPS then 0 else pos + 1 in
  Some (mkSketch (DisplayBM sk) ts' pos' now (oldRpm sk)
                 (__curCharacter sk) (serial sk) (pins sk)).

(** The globals as the C start-up code leaves them. *)
Definition power_on : sketch :=
  mkSketch [0; 0; 0; 0] [0; 0; 0; 0; 0] 0 0 0 0 EmptyString [].

(** [setup], as far as it touches the state: the display shows dashes. *)
Definition setup (sk : sketch) : option sketch :=
  do bm <- SetupDigits "----" (DisplayBM sk);
  Some (set_DisplayBM bm sk).

(** ** Vocabulary for the display *)

(** The characters of a C string, up to its first NUL, as [char] values. *)
Fixpoint c_chars (s : string) : list Z :=
  match s with
  | EmptyString => []
  | String a s' =>
      let c := Avr.char (code a) in
      if c =? 0 then [] else c :: c_chars s'
  end.

(** The characters a table lists, up to its end marker. *)
Fixpoint table_keys (bm : list Z) : list Z :=
  match bm with
  | k :: _ :: rest => if k =? 0 then [] else k :: table_keys rest
  | _ => []
  end.

Definition in_table (c : Z) : bool :=
  existsb (Z.eqb c) (table_keys CharBitMap).

(** A table is closed when one of its key positions holds the marker. *)
Fixpoint terminated (bm : list Z) : bool :=
  match bm with
  | [] => false
  | k :: tl =>
      if k =? 0 then true
      else match tl with
           | [] => false
           | _ :: rest => terminated rest
           end
  end.

(** The byte [SetupDigits] stores for a character. *)
Definition glyph_of (c : Z) : Z :=
  match find_bitmap CharBitMap c with
  | Some v => v
  | None => 0
  end.

(** The buffer after a rendering of [rpm]. *)
Definition rendering (rpm : Z) : list Z :=
  map glyph_of (c_chars (format_4d rpm)).

(** The digit a glyph stands for. *)
Definition digit_of_glyph (g : Z) : Z :=
  match g with
  | 0xC0 => 0 | 0xF9 => 1 | 0xA4 => 2 | 0xB0 => 3 | 0x99 => 4
  | 0x92 => 5 | 0x82 => 6 | 0xF8 => 7 | 0x80 => 8 | 0x90 => 9
  | _ => -1
  end.

Definition number_of_glyphs (bm : list Z) : Z :=
  fold_left (fun n g => 10 * n + digit_of_glyph g) bm 0.

(** A value of [rpm] that [loop] can render: [sprintf] stays inside
    [displayString], the four characters are digits of the table, and the
    glyphs determine the number. *)
Definition renders (rpm : Z) : bool :=
  match sprintf_displayString rpm with
  | Some text =>
      (List.length (c_chars text) =? 4)%nat
      && forallb in_table (c_chars text)
      && (number_of_glyphs (rendering rpm) =? rpm)
  | None => false
  end.

Fixpoint renders_from (n : nat) (rpm : Z) : bool :=
  match n with
  | O => true
  | S n' => renders rpm && renders_from n' (rpm + 1)
  end.

(** The decimal text of a number from 0 on, written out digit by digit:
    its last digit is [n mod 10], before it come the digits of [n / 10],
    and there is no leading zero.  Ten digits cover 32 bits. *)
Fixpoint digits_before (fuel : nat) (n : Z) (text : string) : string :=
  match fuel with
  | O => text
  | S fuel' =>
      let text' := String (ascii_of_nat (48 + Z.to_nat (n mod 10))) text in
      if n / 10 =? 0 then text' else digits_before fuel' (n / 10) text'
  end.

Definition decimal_text (n : Z) : string := digits_before 10 n EmptyString.

(** [Serial.println(int)] writes that text. *)
Definition prints_decimal (n : Z) : bool :=
  String.eqb (print_int n) (decimal_text n).


(** The buffer as [setup] leaves it. *)
Definition dashes : list Z := [0xbf; 0xbf; 0xbf; 0xbf].

(** What the buffer holds between two passes of [loop]: the rendering of
    [oldRpm], or the dashes of [setup] as long as no value was shown. *)
Definition shows_oldRpm (sk : sketch) : Prop :=
  (DisplayBM sk = rendering (oldRpm sk) /\ 0 <= oldRpm sk <= 9999)
  \/ DisplayBM sk = dashes.

(** The buffer index the next call of [DisplayDigits] shows. *)
Definition position (sk : sketch) : Z := __curCharacter sk mod 4.

(** A byte on the data line, most significant bit first, each bit
    followed by a clock pulse. *)
Definition serial_bits (c : Z) : list (Z * bool) :=
  flat_map (fun i => [(DIO, Z.testbit c i); (SCLK, LOW); (SCLK, HIGH)])
           [7; 6; 5; 4; 3; 2; 1; 0].

Definition is_byte (c : Z) : bool := (0 <=? c) && (c <? 256).

Fixpoint trace_eqb (l1 l2 : list (Z * bool)) : bool :=
  match l1, l2 with
  | [], [] => true
  | (a, b) :: t1, (a', b') :: t2 =>
      (a =? a') && Bool.eqb b b' && trace_eqb t1 t2
  | _, _ => false
  end.

Fixpoint shifts_from (n : nat) (c : Z) : bool :=
  match n with
  | O => true
  | S n' =>
      trace_eqb (ShiftToDisplay c) (serial_bits c) && shifts_from n' (c + 1)
  end.

(** ** The edge interrupt against the main loop *)

(** On the ATmega328 a 32-bit variable is read and written one byte at a
    time.  The interrupt handler runs to its end once started; the main
    program can be interrupted between any two of its byte accesses while
    the global interrupt flag is set.  An edge that arrives while the flag
    is clear is latched and served when the flag is set again. *)
Module Irq.

(** Byte [b] of a 32-bit value, least significant first. *)
Definition byte_of (v : Z) (b : nat) : Z := (v / 256 ^ Z.of_nat b) mod 256.

Definition bytes_of_slot (v : Z) : list Z :=
  map (byte_of v) (seq 0 4).

Definition bytes_of_ring (ring : list Z) : list Z :=
  flat_map bytes_of_slot ring.

Fixpoint ring_of_bytes (bytes : list Z) : list Z :=
  match bytes with
  | b0 :: b1 :: b2 :: b3 :: rest =>
      (b0 + 256 * b1 + 65536 * b2 + 16777216 * b3) :: ring_of_bytes rest
  | _ => []
  end.

(** The steps of [calculateRPM] up to [interrupts()], one per access to
    a variable shared with the handler.  The scan loop works on the
    local copy only and is no step of its own. *)
Inductive op : Type :=
| OpMillis                 (* curTime = millis() *)
| OpNoInterrupts           (* noInterrupts() *)
| OpReadPos                (* p = curTimestampPos *)
| OpMemset                 (* memset(ts, 0, sizeof(ts)) *)
| OpCopy (k : nat)         (* byte k of ts[i] = timestamps[i] *)
| OpInterrupts.            (* interrupts() *)

Definition ring_bytes : nat := (4 * MAX_STAMPS)%nat.

Definition copy_loop : list op := map OpCopy (seq 0 ring_bytes).

Definition calculateRPM_code : list op :=
  [OpMillis; OpNoInterrupts; OpReadPos; OpMemset] ++ copy_loop
    ++ [OpInterrupts].

(** The same steps with the call of [noInterrupts()] left out. *)
Definition unprotected_code : list op :=
  [OpMillis; OpReadPos; OpMemset] ++ copy_loop ++ [OpInterrupts].

Record cpu : Type := mkCpu {
  mem : sketch;            (* the globals *)
  clock : Z;               (* what millis() returns *)
  I_flag : bool;           (* global interrupt enable *)
  INTF0 : bool;            (* an edge is latched *)
  pc : list op;            (* what is left of the main program *)
  curTime : Z;             (* locals of calculateRPM *)
  p : Z;
  ts : list Z              (* the local array, as bytes *)
}.

Definition set_mem (m : sketch) (c : cpu) : cpu :=
  mkCpu m (clock c) (I_flag c) (INTF0 c) (pc c) (curTime c) (p c) (ts c).

(** One step of the main program. *)
Definition exec_op (o : op) (rest : list op) (c : cpu) : option cpu :=
  match o with
  | OpMillis =>
      Some (mkCpu (mem c) (clock c) (I_flag c) (INTF0 c) rest
                  (clock c) (p c) (ts c))
  | OpNoInterrupts =>
      Some (mkCpu (mem c) (clock c) false (INTF0 c) rest
                  (curTime c) (p c) (ts c))
  | OpReadPos =>
      Some (mkCpu (mem c) (clock c) (I_flag c) (INTF0 c) rest
                  (curTime c) (curTimestampPos (mem c)) (ts c))
  | OpMemset =>
      Some (mkCpu (mem c) (clock c) (I_flag c) (INTF0 c) rest
                  (curTime c) (p c) (repeat 0 ring_bytes))
  | OpCopy k =>
      do ts' <- store (ts c) k
                      (nth k (bytes_of_ring (timestamps (mem c))) 0);
      Some (mkCpu (mem c) (clock c) (I_flag c) (INTF0 c) rest
                  (curTime c) (p c) ts')
  | OpInterrupts =>
      do m <- (if INTF0 c then rpmInterrupt (clock c) (mem c)
               else Some (mem c));
      Some (mkCpu m (clock c) true false rest (curTime c) (p c) (ts c))
  end.

(** What can happen next: the clock advances, the sensor line falls, or
    the main program takes a step. *)
Inductive action : Type := Tick | Edge | Step.

Definition exec (a : action) (c : cpu) : option cpu :=
  match a with
  | Tick =>
      Some (mkCpu (mem c) (Avr.ulong (clock c + 1)) (I_flag c) (INTF0 c)
                  (pc c) (curTime c) (p c) (ts c))
  | Edge =>
      if I_flag c then
        do m <- rpmInterrupt (clock c) (mem c);
        Some (set_mem m c)
      else
        Some (mkCpu (mem c) (clock c) (I_flag c) true (pc c)
                    (curTime c) (p c) (ts c))
  | Step =>
      match pc c with
      | [] => Some c
      | o :: rest => exec_op o rest c
      end
  end.

(** The states a schedule goes through, the first one included. *)
Fixpoint run (sched : list action) (c : cpu) : option (list cpu) :=
  match sched with
  | [] => Some [c]
  | a :: sched' =>
      do c' <- exec a c;
      do h <- run sched' c';
      Some (c :: h)
  end.

(** The state a main program starts from. *)
Definition start (code : list op) (m : sketch) (now : Z) : cpu :=
  mkCpu m now true false code 0 0 [].

(** The globals the handler relies on. *)
Definition mem_ok (m : sketch) : bool :=
  ring_ok (timestamps m)
  && (0 <=? curTimestampPos m)
  && (curTimestampPos m <? Z.of_nat MAX_STAMPS).

(** The ring the local array holds once the copy is complete. *)
Definition copied (c : cpu) : list Z := ring_of_bytes (ts c).

(** What is left of [calculateRPM_code] when [j] bytes are copied. *)
Definition copy_rest (j : nat) : list op :=
  map OpCopy (seq j (ring_bytes - j)) ++ [OpInterrupts].

(** Where the main program stands, for the proof of atomicity: before
    [noInterrupts()]; between it and the copy loop; [j] bytes into the
    copy loop; or past [interrupts()], with the ring [seen] copied. *)
Definition stage (seen : option (list Z)) (c : cpu) : Prop :=
  (pc c = calculateRPM_code \/ pc c = tl calculateRPM_code)
  \/ (I_flag c = false
      /\ (pc c = OpReadPos :: OpMemset :: copy_rest 0
          \/ pc c = OpMemset :: copy_rest 0))
  \/ (I_flag c = false
      /\ exists j, (j <= ring_bytes)%nat
           /\ pc c = copy_rest j
           /\ List.length (ts c) = ring_bytes
           /\ firstn j (ts c)
              = firstn j (bytes_of_ring (timestamps (mem c))))
  \/ (pc c = [] /\ seen = Some (copied c)).

Definition invariant (seen : option (list Z)) (c : cpu) : Prop :=
  mem_ok (mem c) = true /\ is_ulong (clock c) = true /\ stage seen c.

(** A ring of which slot 0 changes from 255 to 256 while it is copied
    without protection. *)
Definition torn_start : cpu :=
  start unprotected_code
        (mkSketch [0; 0; 0; 0] [255; 0; 0; 0; 0] 0 0 0 0 EmptyString [])
        256.

Definition torn_schedule : list action :=
  [Step; Step; Step; Step; Edge] ++ repeat Step 20.

End Irq.

(** ** The ring under a sequence of edges *)

(** The handler run once for each falling edge, [nows] being the clock
    values at the edges, oldest first. *)
Fixpoint interrupts (nows : list Z) (sk : sketch) : option sketch :=
  match nows with
  | [] => Some sk
  | now :: rest =>
      do sk' <- rpmInterrupt now sk;
      interrupts rest sk'
  end.

(** The slots of a ring that holds [stamps], oldest first, from the slot
    at the write cursor [q] on. *)
Definition ring_at (q : Z) (stamps : list Z) : list Z :=
  skipn (MAX_STAMPS - Z.to_nat q) stamps
    ++ firstn (MAX_STAMPS - Z.to_nat q) stamps.

(** The last [n] elements of a list. *)
Definition lastn {A : Type} (n : nat) (l : list A) : list A :=
  skipn (List.length l - n) l.

(** ** Vocabulary for the glyph table and the shift registers *)

(** The pairs of a table, up to its end marker. *)
Fixpoint table_pairs (bm : list Z) : list (Z * Z) :=
  match bm with
  | k :: v :: rest => if k =? 0 then [] else (k, v) :: table_pairs rest
  | _ => []
  end.

(** A check for every integer from [c] on, [n] of them. *)
Fixpoint all_from (check : Z -> bool) (n : nat) (c : Z) : bool :=
  match n with
  | O => true
  | S n' => check c && all_from check n' (c + 1)
  end.

(** The bits of a byte, most significant first, and back. *)
Definition bits_of (c : Z) : list bool :=
  map (Z.testbit c) [7; 6; 5; 4; 3; 2; 1; 0].

Definition byte_of_bits (bits : list bool) : Z :=
  fold_left (fun n (b : bool) => 2 * n + (if b then 1 else 0)) bits 0.

(** The two cascaded shift registers of the display, as the comments of
    the sketch use them: a rising edge of the clock line shifts the level
    of the data line in, a rising edge of the latch line shows the last
    sixteen bits. *)
Record registers : Type := mkRegisters {
  dio_level : bool;
  sclk_level : bool;
  rclk_level : bool;
  clocked : list bool;          (* the bits shifted in, oldest first *)
  latched : list (list bool)    (* the words shown, oldest first *)
}.

Definition registers_step (r : registers) (w : Z * bool) : registers :=
  let (pin, level) := w in
  if pin =? DIO then
    mkRegisters level (sclk_level r) (rclk_level r) (clocked r) (latched r)
  else if pin =? SCLK then
    mkRegisters (dio_level r) level (rclk_level r)
                (if level && negb (sclk_level r)
                 then clocked r ++ [dio_level r] else clocked r)
                (latched r)
  else if pin =? RCLK then
    mkRegisters (dio_level r) (sclk_level r) level (clocked r)
                (if level && negb (rclk_level r)
                 then latched r ++ [lastn 16 (clocked r)] else latched r)
  else r.

Definition drive (r : registers) (trace : list (Z * bool)) : registers :=
  fold_left registers_step trace r.

(** The word the registers show for a glyph and a select byte. *)
Definition word_of (bm sel : Z) : list bool := bits_of bm ++ bits_of sel.

(** ** The sketch as a whole *)

Definition loop_banner : string := "Hall sensor with RPM output".

(** [setup] and the first statement of [loop]. *)
Definition boot : option sketch :=
  do sk <- setup power_on;
  Some (Serial_println loop_banner sk).











(** The state after the body of the [if] of [loop], for a value that
    [sprintf] and [SetupDigits] render. *)
Definition refreshed (rpm : Z) (sk : sketch) : sketch :=
  set_DisplayBM (rendering rpm)
    (Serial_println (print_int rpm)
       (Serial_print "rpm: " (set_oldRpm rpm sk))).

(** The values for which [sprintf] does not stay inside [displayString]. *)
Definition overflows (rpm : Z) : bool :=
  match sprintf_displayString rpm with
  | None => true
  | Some _ => false
  end.



(** The words the display is to show for a buffer: each entry with the
    select byte of its digit. *)
Definition refresh_words (b0 b1 b2 b3 : Z) : list (list bool) :=
  [word_of b0 0x08; word_of b1 0x04; word_of b2 0x02; word_of b3 0x01].

(** A single precision value that does not carry a minus sign on a
    nonzero magnitude. *)
Definition not_negative (f : spec_float) : Prop :=
  forall m e, f <> S754_finite true m e.

(** * Properties of the estimator *)

Lemma is_ulong_range (t : Z) : is_ulong t = true <-> 0 <= t < 2 ^ 32.
Proof.
  unfold is_ulong. rewrite andb_true_iff, Z.leb_le, Z.ltb_lt. tauto.
Qed.

Ltac pow2 :=
  change (2 ^ 32) with 4294967296 in *;
  change (2 ^ 31) with 2147483648 in *;
  change (2 ^ 8) with 256 in *;
  change (2 ^ 7) with 128 in *.

(** The age the scan loop computes is the distance on the 32-bit clock. *)
Lemma tsDiff_clock_distance (now t : Z) :
  0 <= now < 2 ^ 32 -> 0 <= t < 2 ^ 32 ->
  tsDiff now t = clock_distance now t.
Proof.
  intros Hn Ht.
  unfold tsDiff, clock_distance, Avr.ulong, Avr.abs_long, Avr.long.
  pow2.
  destruct (Z.gtb_spec
              (((now + 2147483648) mod 4294967296 - 2147483648
                - ((t + 2147483648) mod 4294967296 - 2147483648)
                + 2147483648) mod 4294967296 - 2147483648) 0);
    Z.div_mod_to_equations; lia.
Qed.

(** Without wrap-around the distance is the absolute difference. *)
Lemma clock_distance_abs (a b : Z) :
  Z.abs (a - b) <= 2 ^ 31 -> clock_distance a b = Z.abs (a - b).
Proof.
  unfold clock_distance. pow2. intros H.
  Z.div_mod_to_equations; lia.
Qed.

Lemma ring_ok_inv (ts : list Z) :
  ring_ok ts = true ->
  List.length ts = MAX_STAMPS /\ forall t, In t ts -> 0 <= t < 2 ^ 32.
Proof.
  unfold ring_ok. rewrite andb_true_iff, Nat.eqb_eq, forallb_forall.
  intros [Hlen Hall]. split; [exact Hlen|].
  intros t Ht. apply is_ulong_range, Hall, Ht.
Qed.

Lemma five_slots {A : Type} (l : list A) :
  List.length l = MAX_STAMPS -> exists a b c d e, l = [a; b; c; d; e].
Proof.
  unfold MAX_STAMPS. intros H.
  do 5 (destruct l as [|? l]; [discriminate H|]).
  destruct l; [|discriminate H]. eauto 6.
Qed.

(** The copy loop copies a ring of [MAX_STAMPS] slots as it is. *)
Lemma snapshot_id (ts : list Z) :
  List.length ts = MAX_STAMPS -> snapshot ts = ts.
Proof.
  intros H. destruct (five_slots ts H) as (a & b & c & d & e & ->).
  reflexivity.
Qed.

(** The indexed scan loop is a left fold over the slots. *)
Lemma scan_fold (now : Z) (ts : list Z) :
  List.length ts = MAX_STAMPS ->
  scan now ts = fold_left (scan_step now) ts (mkScan 0 0 0).
Proof.
  intros H. destruct (five_slots ts H) as (a & b & c & d & e & ->).
  reflexivity.
Qed.

Section Window.

Variable now : Z.
Hypothesis now_range : 0 <= now < 2 ^ 32.

(** A step of the scan loop accepts the slots in the window. *)
Lemma scan_step_window (st : scan_state) (t : Z) :
  0 <= t < 2 ^ 32 ->
  scan_step now st t = if in_window now t then accept st t else st.
Proof.
  intros Ht. unfold scan_step, in_window, accept.
  rewrite (tsDiff_clock_distance now t now_range Ht).
  destruct (clock_distance now t <? MAX_STAMP_AGE); [|reflexivity].
  f_equal. destruct (Z.gtb_spec t (high st)); lia.
Qed.

(** The loop over any slots is the loop over those in the window. *)
Lemma scan_valid (l : list Z) :
  (forall t, In t l -> 0 <= t < 2 ^ 32) ->
  forall st,
    fold_left (scan_step now) l st = fold_left accept (valid_stamps now l) st.
Proof.
  induction l as [|t l IH]; intros Hl st; [reflexivity|].
  cbn [fold_left valid_stamps filter].
  rewrite (scan_step_window st t (Hl t (or_introl eq_refl))).
  fold (valid_stamps now l).
  destruct (in_window now t); cbn [fold_left]; apply IH;
    intros u Hu; apply Hl; right; exact Hu.
Qed.

End Window.

Lemma accept_datapoints (vs : list Z) (st : scan_state) :
  datapoints (fold_left accept vs st)
  = datapoints st + Z.of_nat (List.length vs).
Proof.
  revert st. induction vs as [|t vs IH]; intros st.
  - cbn. lia.
  - cbn [fold_left List.length]. rewrite IH. cbn [accept datapoints]. lia.
Qed.

Lemma accept_high (vs : list Z) (st : scan_state) :
  high (fold_left accept vs st) = fold_left Z.max vs (high st).
Proof.
  revert st. induction vs as [|t vs IH]; intros st; [reflexivity|].
  cbn [fold_left]. rewrite IH. reflexivity.
Qed.

Lemma fold_min_pos (vs : list Z) (x : Z) :
  0 < x -> (forall t, In t vs -> 0 < t) -> 0 < fold_left Z.min vs x.
Proof.
  revert x. induction vs as [|t vs IH]; intros x Hx Hvs; [exact Hx|].
  cbn [fold_left]. apply IH.
  - specialize (Hvs t (or_introl eq_refl)). lia.
  - intros u Hu. apply Hvs. right. exact Hu.
Qed.

Lemma accept_low_pos (vs : list Z) (st : scan_state) :
  0 < low st -> (forall t, In t vs -> 0 < t) ->
  low (fold_left accept vs st) = fold_left Z.min vs (low st).
Proof.
  revert st. induction vs as [|t vs IH]; intros st Hst Hvs; [reflexivity|].
  cbn [fold_left].
  assert (Ht : 0 < t) by (apply Hvs; left; reflexivity).
  assert (Hlow : low (accept st t) = Z.min (low st) t).
  { cbn [accept low].
    destruct (Z.eqb_spec (low st) 0); [lia|].
    destruct (Z.leb_spec t (low st)); cbn [orb]; lia. }
  rewrite IH.
  - rewrite Hlow. reflexivity.
  - rewrite Hlow. lia.
  - intros u Hu. apply Hvs. right. exact Hu.
Qed.

(** Starting from [low = 0], the loop ends with the least accepted stamp
    when none of them is zero. *)
Lemma accept_low_init (vs : list Z) (hi0 n0 : Z) :
  (forall t, In t vs -> 0 < t) ->
  low (fold_left accept vs (mkScan 0 hi0 n0))
  = match minimum_of vs with Some m => m | None => 0 end.
Proof.
  destruct vs as [|t vs]; intros Hvs; [reflexivity|].
  cbn [fold_left minimum_of].
  assert (Ht : 0 < t) by (apply Hvs; left; reflexivity).
  rewrite accept_low_pos.
  - reflexivity.
  - exact Ht.
  - intros u Hu. apply Hvs. right. exact Hu.
Qed.

Lemma fold_max_le (vs : list Z) (x : Z) : x <= fold_left Z.max vs x.
Proof.
  revert x. induction vs as [|t vs IH]; intros x; cbn [fold_left]; [lia|].
  specialize (IH (Z.max x t)). lia.
Qed.

Lemma accept_high_init (vs : list Z) (lo0 n0 : Z) :
  (forall t, In t vs -> 0 <= t) ->
  high (fold_left accept vs (mkScan lo0 0 n0))
  = match maximum_of vs with Some m => m | None => 0 end.
Proof.
  destruct vs as [|t vs]; intros Hvs; [reflexivity|].
  rewrite accept_high. cbn [fold_left maximum_of high].
  assert (Ht : 0 <= t) by (apply Hvs; left; reflexivity).
  rewrite Z.max_r by exact Ht. reflexivity.
Qed.

Lemma scan_summary (now : Z) (ts : list Z) :
  ring_ok ts = true -> is_ulong now = true ->
  scan now (snapshot ts)
  = fold_left accept (valid_stamps now ts) (mkScan 0 0 0).
Proof.
  intros Hts Hnow. apply ring_ok_inv in Hts. destruct Hts as [Hlen Hall].
  apply is_ulong_range in Hnow.
  rewrite (snapshot_id ts Hlen), (scan_fold now ts Hlen).
  apply scan_valid; assumption.
Qed.

Lemma valid_stamps_range (now : Z) (ts : list Z) :
  ring_ok ts = true ->
  forall t, In t (valid_stamps now ts) -> 0 <= t < 2 ^ 32.
Proof.
  intros Hts t Ht. apply ring_ok_inv in Hts. destruct Hts as [_ Hall].
  apply Hall. unfold valid_stamps in Ht. apply filter_In in Ht. tauto.
Qed.

Lemma valid_stamps_length (now : Z) (ts : list Z) :
  ring_ok ts = true ->
  (List.length (valid_stamps now ts) <= MAX_STAMPS)%nat.
Proof.
  intros Hts. apply ring_ok_inv in Hts. destruct Hts as [Hlen _].
  rewrite <- Hlen. apply filter_length_le.
Qed.

Lemma scan_datapoints (now : Z) (ts : list Z) :
  ring_ok ts = true -> is_ulong now = true ->
  datapoints (scan now (snapshot ts))
  = Z.of_nat (List.length (valid_stamps now ts)).
Proof.
  intros Hts Hnow. rewrite (scan_summary now ts Hts Hnow).
  rewrite accept_datapoints. reflexivity.
Qed.

Lemma fold_min_le (vs : list Z) (x : Z) :
  fold_left Z.min vs x <= x
  /\ forall t, In t vs -> fold_left Z.min vs x <= t.
Proof.
  revert x. induction vs as [|u vs IH]; intros x; cbn [fold_left].
  - split; [lia|]. intros t [].
  - destruct (IH (Z.min x u)) as [H1 H2]. split; [lia|].
    intros t [<-|Ht]; [lia|]. apply H2, Ht.
Qed.

Lemma minimum_of_le (vs : list Z) (m : Z) :
  minimum_of vs = Some m -> forall t, In t vs -> m <= t.
Proof.
  destruct vs as [|x vs]; [discriminate|].
  cbn [minimum_of]. intros [= <-] t [<-|Ht].
  - apply (proj1 (fold_min_le vs x)).
  - apply (proj2 (fold_min_le vs x)), Ht.
Qed.

Lemma fold_max_in (vs : list Z) (x : Z) :
  In (fold_left Z.max vs x) (x :: vs).
Proof.
  revert x. induction vs as [|u vs IH]; intros x; cbn [fold_left];
    [left; reflexivity|].
  destruct (IH (Z.max x u)) as [H|H].
  - rewrite <- H.
    destruct (Z.max_spec x u) as [[_ E]|[_ E]]; rewrite E.
    + right. left. reflexivity.
    + left. reflexivity.
  - right. right. exact H.
Qed.

(** A stamp the clock has left behind by more than [MAX_STAMP_AGE] is
    outside the window, up to the last [MAX_STAMP_AGE] milliseconds before
    the clock wraps. *)
Lemma aged_out (now t : Z) :
  0 <= t -> t + MAX_STAMP_AGE < now -> now <= 2 ^ 32 - MAX_STAMP_AGE ->
  in_window now t = false.
Proof.
  unfold in_window, clock_distance, MAX_STAMP_AGE. pow2. intros H0 H1 H2.
  apply Z.ltb_ge. Z.div_mod_to_equations. lia.
Qed.

Lemma accurate_at_spec (timeDiff : Z) :
  accurate_at timeDiff
  = forallb (fun revs => rpm_accurate revs timeDiff) [1; 2; 3; 4].
Proof. reflexivity. Qed.

Lemma accurate_from_spec (n : nat) :
  forall d, accurate_from n d = true ->
  forall x, d <= x < d + Z.of_nat n -> accurate_at x = true.
Proof.
  induction n as [|n IH]; intros d H x Hx; [lia|].
  cbn [accurate_from] in H. apply andb_true_iff in H. destruct H as [H1 H2].
  destruct (Z.eq_dec x d) as [->|Hne]; [exact H1|].
  apply (IH (d + 1) H2). lia.
Qed.

Lemma rpm_accurate_table :
  accurate_from (Z.to_nat (2 * MAX_STAMP_AGE - 2)) 1 = true.
Proof. vm_compute. reflexivity. Qed.

(** Accuracy of the single precision computation on every interval two
    stamps of one window can span. *)
Lemma rpm_of_accuracy (revs timeDiff : Z) :
  1 <= revs <= 4 -> 1 <= timeDiff < 2 * MAX_STAMP_AGE - 1 ->
  rpm_accurate revs timeDiff = true.
Proof.
  intros Hr Hd.
  assert (H : accurate_at timeDiff = true).
  { apply (accurate_from_spec _ 1 rpm_accurate_table).
    unfold MAX_STAMP_AGE in *. lia. }
  rewrite accurate_at_spec, forallb_forall in H. apply H.
  assert (revs = 1 \/ revs = 2 \/ revs = 3 \/ revs = 4) as Hc by lia.
  cbn [In]. intuition.
Qed.

Lemma accept_equal_keep (v : Z) (vs : list Z) :
  (forall t, In t vs -> t = v) ->
  forall st, low st = v -> high st = v ->
    low (fold_left accept vs st) = v /\ high (fold_left accept vs st) = v.
Proof.
  induction vs as [|t vs IH]; intros Hvs st Hlo Hhi; [tauto|].
  cbn [fold_left]. apply IH.
  - intros u Hu. apply Hvs. right. exact Hu.
  - cbn [accept low]. rewrite (Hvs t (or_introl eq_refl)), Hlo.
    rewrite Z.leb_refl, orb_true_r. reflexivity.
  - cbn [accept high]. rewrite (Hvs t (or_introl eq_refl)), Hhi. lia.
Qed.

(** When all accepted stamps are equal, [low] and [high] both end with
    their value. *)
Lemma accept_equal (v : Z) (vs : list Z) (n0 : Z) :
  0 <= v -> vs <> [] -> (forall t, In t vs -> t = v) ->
  low (fold_left accept vs (mkScan 0 0 n0)) = v
  /\ high (fold_left accept vs (mkScan 0 0 n0)) = v.
Proof.
  intros Hv Hne Hvs. destruct vs as [|t vs]; [contradiction|].
  cbn [fold_left]. apply accept_equal_keep.
  - intros u Hu. apply Hvs. right. exact Hu.
  - rewrite (Hvs t (or_introl eq_refl)). reflexivity.
  - cbn [accept high]. rewrite (Hvs t (or_introl eq_refl)). lia.
Qed.

(** Over an interval of 0 ms the quotient is infinite and its cast to
    [int] undefined. *)
Lemma rpm_of_zero_interval (revs : Z) :
  1 <= revs <= 4 ->
  rps_of revs 0 = S754_infinity false /\ rpm_of revs 0 = None.
Proof.
  intros H.
  assert (revs = 1 \/ revs = 2 \/ revs = 3 \/ revs = 4)
    as [->|[->|[->| ->]]] by lia;
    split; vm_compute; reflexivity.
Qed.

(** ** Claims about the estimator *)

(** C1 (evaluation of the code at the specification's own example).  With
    all five slots holding 5000 and the clock at 5000, every slot is
    accepted, [low = high = 5000], and [timeDiff] is 0: the elapsed time is
    0.0 seconds, [rps] is the quotient 4 / 0.0, an infinity, and its
    conversion to [int] is undefined.  The code does not return 0: there
    is no test for a zero interval. *)
Theorem calculateRPM_zero_interval :
  let ring := [5000; 5000; 5000; 5000; 5000] in
  valid_stamps 5000 ring = ring
  /\ scan 5000 (snapshot ring) = mkScan 5000 5000 5
  /\ elapsedSeconds 0 = S754_zero false
  /\ rps_of 4 0 = S754_infinity false
  /\ F32.mul (rps_of 4 0) (F32.of_Z 60) = S754_infinity false
  /\ calculateRPM 5000 ring = None
  /\ calculateRPM 5000 ring <> Some 0.
Proof.
  cbv zeta. repeat split; try (vm_compute; reflexivity).
  vm_compute. discriminate.
Qed.

(** The same happens on the first pass after power-on, with the ring
    still holding its initial zeros. *)
Lemma calculateRPM_power_on :
  calculateRPM 3000 (timestamps power_on) = None.
Proof. vm_compute. reflexivity. Qed.

(** And so it does whenever two or more slots are in the window and all
    of them hold the same stamp. *)
Lemma calculateRPM_equal_stamps (now : Z) (ts : list Z) (v : Z) :
  ring_ok ts = true -> is_ulong now = true ->
  (2 <= List.length (valid_stamps now ts))%nat ->
  (forall t, In t (valid_stamps now ts) -> t = v) ->
  calculateRPM now ts = None.
Proof.
  intros Hts Hnow Htwo Hsame.
  pose proof (valid_stamps_length now ts Hts) as Hlen.
  unfold MAX_STAMPS in Hlen.
  assert (Hne : valid_stamps now ts <> []).
  { intros E. rewrite E in Htwo. cbn in Htwo. lia. }
  assert (Hv : 0 <= v).
  { destruct (valid_stamps now ts) as [|t vs] eqn:E; [contradiction|].
    rewrite <- (Hsame t (or_introl eq_refl)).
    apply (valid_stamps_range now ts Hts). rewrite E. left. reflexivity. }
  unfold calculateRPM. rewrite (scan_summary now ts Hts Hnow).
  destruct (accept_equal v (valid_stamps now ts) 0 Hv Hne Hsame) as [-> ->].
  rewrite accept_datapoints. cbn [datapoints]. rewrite Z.add_0_l.
  destruct (Z.gtb_spec (Z.of_nat (List.length (valid_stamps now ts))) 1);
    [|lia].
  rewrite Z.sub_diag. apply rpm_of_zero_interval. lia.
Qed.

(** C2 (counterexample).  Three seconds after power-on the five slots
    still hold the zero of the start-up code, and the scan loop counts all
    five of them as data points. *)
Lemma zero_slots_are_counted :
  timestamps power_on = [0; 0; 0; 0; 0]
  /\ datapoints (scan 3000 (snapshot (timestamps power_on))) = 5.
Proof. split; reflexivity. Qed.

(** C2 (amended).  The scan loop counts a slot exactly when its distance
    to [now] on the 32-bit clock is below [MAX_STAMP_AGE], whatever its
    value: one step adds one to [datapoints] for a slot in the window and
    leaves the state alone otherwise, and the loop ends with the number of
    slots in the window.  The value 0 is no exception: a slot holding 0 is
    counted whenever it is in the window. *)
Theorem datapoints_counts_window (now : Z) (ts : list Z) :
  ring_ok ts = true -> is_ulong now = true ->
  (forall st t, is_ulong t = true ->
     datapoints (scan_step now st t)
     = datapoints st + (if in_window now t then 1 else 0))
  /\ datapoints (scan now (snapshot ts))
     = Z.of_nat (List.length (filter (in_window now) ts))
  /\ (in_window now 0 = true ->
      datapoints (scan_step now (mkScan 0 0 0) 0) = 1).
Proof.
  intros Hts Hnow. split; [|split].
  - intros st t Ht.
    rewrite scan_step_window by (apply is_ulong_range; assumption).
    destruct (in_window now t); cbn [accept datapoints]; lia.
  - apply scan_datapoints; assumption.
  - intros H0.
    rewrite scan_step_window by (apply is_ulong_range; auto).
    rewrite H0. reflexivity.
Qed.

Lemma datapoints_counts_window_witness :
  datapoints (scan 3000 (snapshot [1000; 2000; 0; 0; 4294960000]))
  = Z.of_nat (List.length (filter (in_window 3000)
                                  [1000; 2000; 0; 0; 4294960000])).
Proof.
  apply (datapoints_counts_window 3000 [1000; 2000; 0; 0; 4294960000]
           eq_refl eq_refl).
Defined.

(** C3.  When fewer than two slots are within [MAX_STAMP_AGE] of [now],
    the age of a slot being its distance from [now] on the 32-bit clock,
    [calculateRPM] returns 0; so it does when the clock has moved more
    than [MAX_STAMP_AGE] past every slot and is at most
    [2^32 - MAX_STAMP_AGE], that is not within [MAX_STAMP_AGE] of its
    wrap. *)
Theorem calculateRPM_insufficient_data (now : Z) (ts : list Z) :
  ring_ok ts = true -> is_ulong now = true ->
  ((List.length (valid_stamps now ts) < 2)%nat ->
   calculateRPM now ts = Some 0)
  /\ ((forall t, In t ts -> t + MAX_STAMP_AGE < now) ->
      now <= 2 ^ 32 - MAX_STAMP_AGE ->
      calculateRPM now ts = Some 0).
Proof.
  intros Hts Hnow.
  assert (Hfew : (List.length (valid_stamps now ts) < 2)%nat ->
                 calculateRPM now ts = Some 0).
  { intros Hlt. unfold calculateRPM.
    rewrite (scan_datapoints now ts Hts Hnow).
    destruct (Z.gtb_spec (Z.of_nat (List.length (valid_stamps now ts))) 1);
      [lia|reflexivity]. }
  split; [exact Hfew|].
  intros Hold Hwrap. apply Hfew.
  assert (Hnone : valid_stamps now ts = []).
  { unfold valid_stamps.
    destruct (ring_ok_inv ts Hts) as [_ Hall].
    clear Hfew Hts. induction ts as [|t ts IH]; [reflexivity|].
    cbn [filter].
    rewrite (aged_out now t).
    - apply IH; intros u Hu; [apply Hold|apply Hall]; right; exact Hu.
    - apply (Hall t). left. reflexivity.
    - apply Hold. left. reflexivity.
    - exact Hwrap. }
  rewrite Hnone. cbn. lia.
Qed.

Lemma calculateRPM_insufficient_data_witness :
  calculateRPM 9000 [1000; 1500; 2000; 2500; 8000] = Some 0
  /\ calculateRPM 20000 [1000; 1500; 2000; 2500; 3000] = Some 0.
Proof.
  split.
  - apply (proj1 (calculateRPM_insufficient_data
                    9000 [1000; 1500; 2000; 2500; 8000] eq_refl eq_refl)).
    vm_compute. lia.
  - apply (proj2 (calculateRPM_insufficient_data
                    20000 [1000; 1500; 2000; 2500; 3000] eq_refl eq_refl)).
    + unfold MAX_STAMP_AGE. cbn [In]. intros t Ht.
      repeat (destruct Ht as [<-|Ht]; [lia|]). destruct Ht.
    + vm_compute. discriminate.
Defined.

(** Within [MAX_STAMP_AGE] of the wrap of the clock the claim fails as it
    is written: the clock has moved more than [MAX_STAMP_AGE] past every
    slot and no slot is within [MAX_STAMP_AGE] of it by subtraction, yet
    the stamps near 0 are counted again, and the result is 80 for one
    ring and undefined for the ring of zeros. *)
Lemma stale_stamps_count_before_wrap :
  (forall t, In t [0; 1000; 2000; 3000; 4000] ->
     t + MAX_STAMP_AGE < 4294967295)
  /\ filter (fun t => Z.abs (4294967295 - t) <? MAX_STAMP_AGE)
            [0; 1000; 2000; 3000; 4000] = []
  /\ is_ulong 4294967295 = true
  /\ ring_ok [0; 1000; 2000; 3000; 4000] = true
  /\ calculateRPM 4294967295 [0; 1000; 2000; 3000; 4000] = Some 80
  /\ (forall t, In t [0; 0; 0; 0; 0] -> t + MAX_STAMP_AGE < 4294967000)
  /\ calculateRPM 4294967000 [0; 0; 0; 0; 0] = None.
Proof.
  split.
  { unfold MAX_STAMP_AGE. cbn [In]. intros t Ht.
    repeat (destruct Ht as [<-|Ht]; [lia|]). destruct Ht. }
  split; [reflexivity|]. split; [reflexivity|]. split; [reflexivity|].
  split; [vm_compute; reflexivity|]. split.
  { unfold MAX_STAMP_AGE. cbn [In]. intros t Ht.
    repeat (destruct Ht as [<-|Ht]; [lia|]). destruct Ht. }
  vm_compute. reflexivity.
Qed.

(** C4.  On the ring 1000, 1500, 2000, 2500, 3000 read at 3000 all five
    slots are in the window, the loop ends with [low = 1000],
    [high = 3000] and five data points, the elapsed time is 2.0 seconds,
    and the result is 120. *)
Theorem calculateRPM_example :
  let ring := [1000; 1500; 2000; 2500; 3000] in
  valid_stamps 3000 ring = ring
  /\ scan 3000 (snapshot ring) = mkScan 1000 3000 5
  /\ datapoints (scan 3000 (snapshot ring)) - 1 = 4
  /\ elapsedSeconds (3000 - 1000) = F32.of_Z 2
  /\ F32.mul (rps_of 4 2000) (F32.of_Z 60) = F32.of_Z 120
  /\ calculateRPM 3000 ring = Some 120.
Proof.
  cbv zeta. repeat split; reflexivity.
Qed.

(** C5 (counterexample).  Two stamps 700 ms apart: the exact value is
    85.71, which the specification rounds to 86; the code returns 85.
    With a zero slot in the window the loop does not keep the minimum:
    for the stamps 0, 1000, 2700 it ends with [low = 1000] and returns
    70, where the formula of the specification gives 44.  Two stamps 1 ms
    apart give 60000, which no [int] holds. *)
Lemma calculateRPM_does_not_round :
  (valid_stamps 10000 [9000; 9700; 0; 0; 0] = [9000; 9700]
   /\ minimum_of [9000; 9700] = Some 9000
   /\ maximum_of [9000; 9700] = Some 9700
   /\ spec_rpm 2 9000 9700 = 86
   /\ calculateRPM 10000 [9000; 9700; 0; 0; 0] = Some 85)
  /\ (valid_stamps 2700 [0; 1000; 2700; 100000; 100000] = [0; 1000; 2700]
      /\ minimum_of [0; 1000; 2700] = Some 0
      /\ maximum_of [0; 1000; 2700] = Some 2700
      /\ spec_rpm 3 0 2700 = 44
      /\ low (scan 2700 (snapshot [0; 1000; 2700; 100000; 100000])) = 1000
      /\ calculateRPM 2700 [0; 1000; 2700; 100000; 100000] = Some 70)
  /\ (valid_stamps 10000 [9000; 9001; 0; 0; 0] = [9000; 9001]
      /\ spec_rpm 2 9000 9001 = 60000
      /\ calculateRPM 10000 [9000; 9001; 0; 0; 0] = None).
Proof.
  repeat split; vm_compute; reflexivity.
Qed.

(** C5 (amended).  With at least two slots in the window, none of them
    zero, [low] their minimum and [high] their maximum, [high > low],
    the result is the cast to [int] of the single precision value
    [(count - 1) / ((high - low) / 1000.0) * 60.0]: the value is cut off
    toward zero, not rounded.  On every interval of less than twice
    [MAX_STAMP_AGE] the result is the exact quotient rounded down, or one
    less, and it is undefined when the quotient does not fit an [int]. *)
Theorem calculateRPM_truncates (now : Z) (ts : list Z) (count lo hi : Z) :
  ring_ok ts = true -> is_ulong now = true ->
  Z.of_nat (List.length (valid_stamps now ts)) = count ->
  2 <= count ->
  minimum_of (valid_stamps now ts) = Some lo ->
  maximum_of (valid_stamps now ts) = Some hi ->
  0 < lo -> lo < hi ->
  calculateRPM now ts
  = F32.to_int (F32.mul (F32.div (F32.of_Z (count - 1))
                                 (F32.div (F32.of_Z (hi - lo))
                                          (F32.of_Z 1000)))
                        (F32.of_Z 60))
  /\ (hi - lo < 2 * MAX_STAMP_AGE - 1 ->
      match calculateRPM now ts with
      | Some rpm =>
          rpm = (count - 1) * 60000 / (hi - lo)
          \/ rpm = (count - 1) * 60000 / (hi - lo) - 1
      | None => Avr.INT_MAX < (count - 1) * 60000 / (hi - lo)
      end).
Proof.
  intros Hts Hnow Hcount Htwo Hmin Hmax Hlo Hlt.
  assert (Hpos : forall t, In t (valid_stamps now ts) -> 0 < t).
  { intros t Ht. pose proof (minimum_of_le _ _ Hmin t Ht). lia. }
  assert (Hrange := valid_stamps_range now ts Hts).
  assert (Hcalc : calculateRPM now ts = rpm_of (count - 1) (hi - lo)).
  { unfold calculateRPM.
    rewrite (scan_summary now ts Hts Hnow).
    rewrite accept_datapoints, accept_low_init, accept_high_init, Hmin, Hmax.
    - cbn [datapoints]. rewrite Z.add_0_l, Hcount.
      destruct (Z.gtb_spec count 1); [|lia].
      assert (Hhi : 0 <= hi < 2 ^ 32).
      { apply Hrange. destruct (valid_stamps now ts) as [|x vs];
          [discriminate|].
        cbn [maximum_of] in Hmax. injection Hmax as <-.
        apply fold_max_in. }
      unfold Avr.abs_ulong, Avr.ulong. pow2.
      rewrite (Z.mod_small (hi - lo)) by lia.
      destruct (Z.gtb_spec (hi - lo) 0); [reflexivity|lia].
    - intros t Ht. specialize (Hrange t Ht). lia.
    - exact Hpos. }
  split; [exact Hcalc|].
  intros Hspan. rewrite Hcalc.
  pose proof (valid_stamps_length now ts Hts) as Hlen.
  unfold MAX_STAMPS in Hlen.
  assert (Hacc : rpm_accurate (count - 1) (hi - lo) = true).
  { apply rpm_of_accuracy; lia. }
  unfold rpm_accurate, exact_rpm_floor in Hacc.
  destruct (rpm_of (count - 1) (hi - lo)) as [v|].
  - apply orb_true_iff in Hacc. rewrite !Z.eqb_eq in Hacc. exact Hacc.
  - apply Z.ltb_lt. exact Hacc.
Qed.

Lemma calculateRPM_truncates_witness :
  calculateRPM 10000 [9000; 9700; 0; 0; 0]
  = F32.to_int (F32.mul (F32.div (F32.of_Z (2 - 1))
                                 (F32.div (F32.of_Z (9700 - 9000))
                                          (F32.of_Z 1000)))
                        (F32.of_Z 60)).
Proof.
  apply (proj1 (calculateRPM_truncates 10000 [9000; 9700; 0; 0; 0]
                  2 9000 9700 eq_refl eq_refl eq_refl
                  ltac:(lia) eq_refl eq_refl ltac:(lia) ltac:(lia))).
Defined.

(** * Properties of the display *)

Lemma table_ind (P : list Z -> Prop) :
  P [] -> (forall k, P [k]) ->
  (forall k v rest, P rest -> P (k :: v :: rest)) ->
  forall bm, P bm.
Proof.
  intros H0 H1 H2. fix IH 1.
  intros [|k [|v rest]]; [exact H0|apply H1|apply H2, IH].
Qed.

(** The lookup never reads past a closed table. *)
Lemma find_bitmap_defined (bm : list Z) (c : Z) :
  terminated bm = true -> exists v, find_bitmap bm c = Some v.
Proof.
  induction bm as [|k|k v rest IH] using table_ind; cbn.
  - discriminate.
  - destruct (k =? 0); [eauto|discriminate].
  - destruct (k =? 0); [eauto|]. destruct (k =? c); eauto.
Qed.

(** A character no key matches leaves [i] at its initial 0. *)
Lemma find_bitmap_absent (bm : list Z) (c : Z) :
  terminated bm = true -> existsb (Z.eqb c) (table_keys bm) = false ->
  find_bitmap bm c = Some 0.
Proof.
  induction bm as [|k|k v rest IH] using table_ind; cbn.
  - discriminate.
  - destruct (k =? 0); [reflexivity|discriminate].
  - destruct (k =? 0); [reflexivity|]. cbn [existsb].
    intros Ht Hex. apply orb_false_iff in Hex. destruct Hex as [Hk Hrest].
    rewrite Z.eqb_sym, Hk. apply IH; assumption.
Qed.

Lemma CharBitMap_terminated : terminated CharBitMap = true.
Proof. reflexivity. Qed.

Lemma find_bitmap_glyph (c : Z) :
  find_bitmap CharBitMap c = Some (glyph_of c).
Proof.
  unfold glyph_of.
  destruct (find_bitmap_defined CharBitMap c CharBitMap_terminated) as [v ->].
  reflexivity.
Qed.

Lemma glyph_of_absent (c : Z) : in_table c = false -> glyph_of c = 0.
Proof.
  intros H. unfold glyph_of.
  rewrite (find_bitmap_absent CharBitMap c CharBitMap_terminated H).
  reflexivity.
Qed.

Lemma update_length (buf : list Z) (i : nat) (v : Z) :
  (i < List.length buf)%nat ->
  List.length (update buf i v) = List.length buf.
Proof.
  intros H. unfold update.
  rewrite length_app, length_firstn, length_cons, length_skipn. lia.
Qed.

Lemma store_inside (buf : list Z) (i : nat) (v : Z) :
  (i < List.length buf)%nat -> store buf i v = Some (update buf i v).
Proof.
  intros H. unfold store.
  destruct (Nat.ltb_spec i (List.length buf)); [reflexivity|lia].
Qed.

Lemma store_outside (buf : list Z) (i : nat) (v : Z) :
  (List.length buf <= i)%nat -> store buf i v = None.
Proof.
  intros H. unfold store.
  destruct (Nat.ltb_spec i (List.length buf)); [lia|reflexivity].
Qed.

Lemma store_length (buf : list Z) (i : nat) (v : Z) (buf' : list Z) :
  store buf i v = Some buf' -> List.length buf' = List.length buf.
Proof.
  destruct (Nat.ltb_spec i (List.length buf)) as [Hin|Hout].
  - rewrite store_inside by exact Hin. intros [= <-].
    apply update_length, Hin.
  - rewrite store_outside by exact Hout. discriminate.
Qed.

(** The outer loop on a string that fits: the bytes before the write
    pointer stay, one glyph per character follows, the rest stays. *)
Lemma SetupDigits_from_fits (s : string) :
  forall (k : nat) (buf : list Z),
    (k + List.length (c_chars s) <= List.length buf)%nat ->
    SetupDigits_from s k buf
    = Some (firstn k buf ++ map glyph_of (c_chars s)
              ++ skipn (k + List.length (c_chars s)) buf).
Proof.
  induction s as [|a s IH]; intros k buf Hfit.
  - cbn. rewrite Nat.add_0_r, firstn_skipn. reflexivity.
  - cbn [SetupDigits_from c_chars] in *.
    destruct (Avr.char (code a) =? 0).
    + cbn. rewrite Nat.add_0_r, firstn_skipn. reflexivity.
    + cbn [List.length map] in *.
      rewrite find_bitmap_glyph. cbn [bind].
      rewrite store_inside by lia. cbn [bind].
      set (g := glyph_of (Avr.char (code a))).
      set (n := List.length (c_chars s)) in *.
      assert (Hk : List.length (firstn k buf) = k)
        by (rewrite length_firstn; lia).
      rewrite IH by (rewrite update_length; lia).
      f_equal. unfold update.
      rewrite firstn_app, Hk, firstn_all2 by lia.
      replace (S k - k)%nat with 1%nat by lia.
      rewrite skipn_app, Hk, (skipn_all2 (firstn k buf)) by lia.
      replace (S k + n - k)%nat with (S n) by lia.
      change (firstn 1 (g :: skipn (k + 1) buf)) with [g].
      change (skipn (S n) (g :: skipn (k + 1) buf))
        with (skipn n (skipn (k + 1) buf)).
      rewrite skipn_skipn, <- app_assoc.
      replace (n + (k + 1))%nat with (k + S n)%nat by lia. reflexivity.
Qed.

(** On a longer string a write falls outside the buffer. *)
Lemma SetupDigits_from_overflow (s : string) :
  forall (k : nat) (buf : list Z),
    (k <= List.length buf)%nat ->
    (List.length buf < k + List.length (c_chars s))%nat ->
    SetupDigits_from s k buf = None.
Proof.
  induction s as [|a s IH]; intros k buf Hk Hlong.
  - cbn in Hlong. lia.
  - cbn [SetupDigits_from c_chars] in *.
    destruct (Avr.char (code a) =? 0).
    + cbn in Hlong. lia.
    + cbn [List.length] in Hlong.
      rewrite find_bitmap_glyph. cbn [bind].
      destruct (Nat.ltb_spec k (List.length buf)) as [Hin|Hout].
      * rewrite store_inside by exact Hin. cbn [bind].
        apply IH; rewrite update_length by exact Hin; lia.
      * rewrite store_outside by exact Hout. reflexivity.
Qed.

Lemma SetupDigits_fits (s : string) (buf : list Z) :
  (List.length (c_chars s) <= List.length buf)%nat ->
  SetupDigits s buf
  = Some (map glyph_of (c_chars s) ++ skipn (List.length (c_chars s)) buf).
Proof.
  intros H. unfold SetupDigits.
  rewrite SetupDigits_from_fits by exact H. reflexivity.
Qed.

Lemma SetupDigits_overflow (s : string) (buf : list Z) :
  (List.length buf < List.length (c_chars s))%nat ->
  SetupDigits s buf = None.
Proof.
  intros H. unfold SetupDigits.
  apply SetupDigits_from_overflow; [lia|exact H].
Qed.

(** ** Claims about the rendering *)

(** C6 (counterexample).  The letter x is not in the table; its slot
    receives 0, not the pattern 0xff the table gives the space
    character.  In a string of five such letters the last one has no slot
    in the buffer. *)
Lemma unmatched_is_not_blank :
  in_table (Avr.char (code "x")) = false
  /\ SetupDigits "x" [0xff; 0xff; 0xff; 0xff] = Some [0; 0xff; 0xff; 0xff]
  /\ SetupDigits " " [0xff; 0xff; 0xff; 0xff]
     = Some [0xff; 0xff; 0xff; 0xff]
  /\ find_bitmap CharBitMap (Avr.char (code " ")) = Some 0xff
  /\ SetupDigits "xxxxx" [0xff; 0xff; 0xff; 0xff] = None.
Proof. repeat split; reflexivity. Qed.

(** C6 (amended).  For every string that fits the display buffer, the
    lookup of each of its characters ends inside the table, every
    character gets its slot written, and a character that is not in the
    table is rendered as the byte 0.  That byte is not the blank pattern:
    the table gives the space character 0xff, and a cleared bit lights a
    segment, as the entry 0x80 of the digit 8 shows. *)
Theorem SetupDigits_unmatched (s : string) (buf : list Z) :
  (List.length (c_chars s) <= List.length buf)%nat ->
  (forall c, exists v, find_bitmap CharBitMap c = Some v)
  /\ exists buf',
      SetupDigits s buf = Some buf'
      /\ List.length buf' = List.length buf
      /\ (forall i c, nth_error (c_chars s) i = Some c ->
            nth_error buf' i = Some (glyph_of c))
      /\ (forall i c, nth_error (c_chars s) i = Some c ->
            in_table c = false -> nth_error buf' i = Some 0)
      /\ glyph_of (Avr.char (code " ")) = 0xff
      /\ glyph_of (Avr.char (code "8")) = 0x80.
Proof.
  intros Hfit. split.
  - intros c. apply find_bitmap_defined, CharBitMap_terminated.
  - exists (map glyph_of (c_chars s)
              ++ skipn (List.length (c_chars s)) buf).
    assert (Hslot : forall i c, nth_error (c_chars s) i = Some c ->
              nth_error (map glyph_of (c_chars s)
                           ++ skipn (List.length (c_chars s)) buf) i
              = Some (glyph_of c)).
    { intros i c Hi.
      rewrite nth_error_app1.
      - rewrite nth_error_map, Hi. reflexivity.
      - rewrite length_map. apply nth_error_Some. rewrite Hi. discriminate. }
    split; [apply SetupDigits_fits, Hfit|].
    split.
    { rewrite length_app, length_map, length_skipn. lia. }
    split; [exact Hslot|].
    split; [|split; reflexivity].
    intros i c Hi Habs. rewrite (Hslot i c Hi), (glyph_of_absent c Habs).
    reflexivity.
Qed.

Lemma SetupDigits_unmatched_witness :
  exists buf',
    SetupDigits "1x" [1; 2; 3; 4] = Some buf'
    /\ nth_error buf' 1 = Some 0.
Proof.
  destruct (SetupDigits_unmatched "1x" [1; 2; 3; 4]) as [_ H].
  - cbn. lia.
  - destruct H as (buf' & H1 & _ & _ & H2 & _).
    exists buf'. split; [exact H1|].
    apply (H2 1%nat (Avr.char (code "x"))); reflexivity.
Defined.

(** C10 (counterexample).  A string of five characters: the fifth write
    falls outside the four bytes of [DisplayBM]. *)
Lemma SetupDigits_five_characters :
  List.length (DisplayBM power_on) = 4%nat
  /\ c_chars "12345" = map (fun a => Avr.char (code a))
                           ["1"; "2"; "3"; "4"; "5"]%char
  /\ SetupDigits "12345" (DisplayBM power_on) = None.
Proof. repeat split; reflexivity. Qed.

(** C10 (amended).  For every string of at most four characters
    [SetupDigits] writes the glyph of each character, in the order of the
    string, into the entries of the buffer from index 0 on, and the
    entries behind them keep their values; a string of more than four
    characters makes it write outside the buffer. *)
Theorem SetupDigits_frame (s : string) (buf : list Z) :
  List.length buf = 4%nat ->
  ((List.length (c_chars s) <= 4)%nat ->
   SetupDigits s buf
   = Some (map glyph_of (c_chars s)
             ++ skipn (List.length (c_chars s)) buf))
  /\ ((4 < List.length (c_chars s))%nat -> SetupDigits s buf = None).
Proof.
  intros Hlen. split; intros H.
  - apply SetupDigits_fits. lia.
  - apply SetupDigits_overflow. lia.
Qed.

Lemma SetupDigits_frame_witness :
  SetupDigits "42" [1; 2; 3; 4]
  = Some (map glyph_of (c_chars "42") ++ skipn 2 [1; 2; 3; 4]).
Proof.
  apply (proj1 (SetupDigits_frame "42" [1; 2; 3; 4] eq_refl)).
  cbn. lia.
Defined.

(** ** Claims about the display sequencer *)

Lemma trace_eqb_eq (l1 l2 : list (Z * bool)) :
  trace_eqb l1 l2 = true -> l1 = l2.
Proof.
  revert l2. induction l1 as [|[a b] t1 IH]; intros [|[a' b'] t2]; cbn;
    try discriminate; [reflexivity|].
  rewrite !andb_true_iff, Z.eqb_eq. intros [[-> Hb] Ht].
  apply Bool.eqb_prop in Hb. subst b'. f_equal. apply IH, Ht.
Qed.

Lemma shifts_from_spec (n : nat) :
  forall c, shifts_from n c = true ->
  forall x, c <= x < c + Z.of_nat n -> ShiftToDisplay x = serial_bits x.
Proof.
  induction n as [|n IH]; intros c H x Hx; [lia|].
  cbn [shifts_from] in H. apply andb_true_iff in H. destruct H as [H1 H2].
  destruct (Z.eq_dec x c) as [->|Hne]; [apply trace_eqb_eq, H1|].
  apply (IH (c + 1) H2). lia.
Qed.

(** [ShiftToDisplay] puts the eight bits of a byte on the data line, the
    most significant first. *)
Lemma ShiftToDisplay_bits (c : Z) :
  is_byte c = true -> ShiftToDisplay c = serial_bits c.
Proof.
  unfold is_byte. rewrite andb_true_iff, Z.leb_le, Z.ltb_lt. intros H.
  apply (shifts_from_spec 256 0); [vm_compute; reflexivity|lia].
Qed.

Lemma position_DisplayDigits (sk : sketch) :
  position (DisplayDigits sk) = (position sk + 1) mod 4.
Proof.
  unfold position, DisplayDigits, Avr.uchar. cbn [__curCharacter]. pow2.
  Z.div_mod_to_equations. lia.
Qed.

Lemma position_iter (sk : sketch) (k : nat) :
  position (Nat.iter k DisplayDigits sk)
  = (position sk + Z.of_nat k) mod 4.
Proof.
  induction k as [|k IH].
  - cbn [Nat.iter]. unfold position. rewrite Z.add_0_r, Z.mod_mod by lia.
    reflexivity.
  - rewrite Nat.iter_succ, position_DisplayDigits, IH.
    rewrite Nat2Z.inj_succ. Z.div_mod_to_equations. lia.
Qed.

(** C8 (counterexample).  From the cursor value 255 the four calls show
    the positions 3, 0, 1, 2, and the first call takes the cursor to 0. *)
Lemma rotation_from_255 :
  let sk := mkSketch dashes [0; 0; 0; 0; 0] 0 0 0 255 EmptyString [] in
  map (fun k => position (Nat.iter k DisplayDigits sk)) [0; 1; 2; 3]%nat
  = [3; 0; 1; 2]
  /\ __curCharacter (DisplayDigits sk) = 0
  /\ __curCharacter (DisplayDigits sk) <> __curCharacter sk + 1.
Proof.
  cbv zeta. repeat split; try reflexivity. vm_compute. discriminate.
Qed.

(** C8 (amended).  Every call of [DisplayDigits] emits one strobe: the
    buffer entry at the cursor modulo 4 and the select byte of that digit,
    between a low and a high level of the latch line; it leaves the buffer
    alone and advances the 8-bit cursor by one modulo 256, so that the
    position advances by one modulo 4, for ever.  From a cursor that is a
    multiple of 4, as at power-on, the calls show the positions 0, 1, 2, 3
    and then 0 again. *)
Theorem DisplayDigits_rotation (sk : sketch) :
  pins (DisplayDigits sk)
  = pins sk
      ++ DisplayDigitBitmap (nth (Z.to_nat (position sk)) (DisplayBM sk) 0)
                            (4 - position sk)
  /\ (forallb is_byte (DisplayBM sk) = true ->
      pins (DisplayDigits sk)
      = pins sk
          ++ [(RCLK, LOW)]
          ++ serial_bits (nth (Z.to_nat (position sk)) (DisplayBM sk) 0)
          ++ serial_bits (2 ^ (3 - position sk))
          ++ [(RCLK, HIGH)])
  /\ DisplayBM (DisplayDigits sk) = DisplayBM sk
  /\ __curCharacter (DisplayDigits sk) = (__curCharacter sk + 1) mod 256
  /\ (forall k, position (Nat.iter k DisplayDigits sk)
                = (position sk + Z.of_nat k) mod 4)
  /\ (position sk = 0 ->
      map (fun k => position (Nat.iter k DisplayDigits sk))
          [0; 1; 2; 3; 4]%nat
      = [0; 1; 2; 3; 0]).
Proof.
  assert (Hpos : 0 <= position sk < 4).
  { unfold position. apply Z.mod_pos_bound. lia. }
  split; [reflexivity|]. split; [|split; [reflexivity|]].
  - intros Hbytes.
    assert (Hsel : digit_select (4 - position sk) = 2 ^ (3 - position sk)).
    { assert (position sk = 0 \/ position sk = 1 \/ position sk = 2
              \/ position sk = 3) as [E|[E|[E|E]]] by lia;
        rewrite E; reflexivity. }
    assert (Hbm : is_byte (nth (Z.to_nat (position sk)) (DisplayBM sk) 0)
                  = true).
    { destruct (nth_in_or_default (Z.to_nat (position sk)) (DisplayBM sk) 0)
        as [Hin| ->]; [|reflexivity].
      rewrite forallb_forall in Hbytes. apply Hbytes, Hin. }
    assert (Hsb : is_byte (2 ^ (3 - position sk)) = true).
    { assert (position sk = 0 \/ position sk = 1 \/ position sk = 2
              \/ position sk = 3) as [E|[E|[E|E]]] by lia;
        rewrite E; reflexivity. }
    unfold DisplayDigits. cbn [pins]. fold (position sk).
    unfold DisplayDigitBitmap.
    rewrite Hsel, (ShiftToDisplay_bits _ Hbm), (ShiftToDisplay_bits _ Hsb).
    reflexivity.
  - split; [reflexivity|]. split; [apply position_iter|].
    intros H0. cbn [map]. rewrite !position_iter, H0. reflexivity.
Qed.

Lemma DisplayDigits_rotation_witness :
  map (fun k => position (Nat.iter k DisplayDigits power_on))
      [0; 1; 2; 3; 4]%nat
  = [0; 1; 2; 3; 0].
Proof.
  apply (DisplayDigits_rotation power_on). reflexivity.
Defined.

(** ** Claims about the main loop *)

(** [setup] leaves the dashes in the buffer. *)
Lemma setup_dashes :
  setup power_on = Some (set_DisplayBM dashes power_on)
  /\ shows_oldRpm (set_DisplayBM dashes power_on).
Proof. split; [reflexivity|right; reflexivity]. Qed.


Lemma string_app_assoc (a b c : string) :
  ((a ++ b) ++ c = a ++ (b ++ c))%string.
Proof.
  induction a as [|x a IH]; cbn; [reflexivity|]. rewrite IH. reflexivity.
Qed.

Lemma renders_from_spec (n : nat) :
  forall r, renders_from n r = true ->
  forall x, r <= x < r + Z.of_nat n -> renders x = true.
Proof.
  induction n as [|n IH]; intros r H x Hx; [lia|].
  cbn [renders_from] in H. apply andb_true_iff in H. destruct H as [H1 H2].
  destruct (Z.eq_dec x r) as [->|Hne]; [exact H1|].
  apply (IH (r + 1) H2). lia.
Qed.

Lemma renders_table : renders_from (Z.to_nat 10000) 0 = true.
Proof. vm_compute. reflexivity. Qed.

(** Every value from 0 to 9999 is formatted as four digits of the table,
    and its glyphs tell it from every other value. *)
Lemma renders_four_digits (rpm : Z) :
  0 <= rpm <= 9999 ->
  sprintf_displayString rpm = Some (format_4d rpm)
  /\ List.length (c_chars (format_4d rpm)) = 4%nat
  /\ number_of_glyphs (rendering rpm) = rpm.
Proof.
  intros H.
  assert (Hr : renders rpm = true).
  { apply (renders_from_spec (Z.to_nat 10000) 0 renders_table). lia. }
  unfold renders in Hr. unfold sprintf_displayString in *.
  destruct (String.length (format_4d rpm) <? 5)%nat; [|discriminate].
  rewrite !andb_true_iff, Nat.eqb_eq, Z.eqb_eq in Hr.
  tauto.
Qed.

(** * The copy of the ring against the edge interrupt *)

Module IrqProofs.
Import Irq.

Lemma bytes_of_slot_inv (t : Z) :
  0 <= t < 2 ^ 32 -> forall rest,
  ring_of_bytes (bytes_of_slot t ++ rest) = t :: ring_of_bytes rest.
Proof.
  intros Ht rest. unfold bytes_of_slot, byte_of. cbn [seq map app].
  cbn [ring_of_bytes]. f_equal. pow2.
  change (256 ^ Z.of_nat 0) with 1. change (256 ^ Z.of_nat 1) with 256.
  change (256 ^ Z.of_nat 2) with 65536.
  change (256 ^ Z.of_nat 3) with 16777216.
  Z.div_mod_to_equations. lia.
Qed.

(** Reading a ring back from its bytes. *)
Lemma ring_of_bytes_of_ring (ring : list Z) :
  (forall t, In t ring -> 0 <= t < 2 ^ 32) ->
  ring_of_bytes (bytes_of_ring ring) = ring.
Proof.
  induction ring as [|t ring IH]; intros H; [reflexivity|].
  cbn [bytes_of_ring flat_map]. rewrite bytes_of_slot_inv.
  - f_equal. apply IH. intros u Hu. apply H. right. exact Hu.
  - apply H. left. reflexivity.
Qed.

Lemma bytes_of_ring_length (ring : list Z) :
  List.length (bytes_of_ring ring) = (4 * List.length ring)%nat.
Proof.
  induction ring as [|t ring IH]; [reflexivity|].
  cbn [bytes_of_ring flat_map]. rewrite length_app.
  fold (bytes_of_ring ring). rewrite IH. cbn. lia.
Qed.

Lemma firstn_succ (l : list Z) (j : nat) :
  (j < List.length l)%nat -> firstn (S j) l = firstn j l ++ [nth j l 0].
Proof.
  revert j. induction l as [|x l IH]; intros j Hj; [cbn in Hj; lia|].
  destruct j as [|j]; [reflexivity|].
  cbn [firstn nth app]. f_equal. apply IH. cbn in Hj. lia.
Qed.

Lemma firstn_update (l : list Z) (j : nat) (v : Z) :
  (j < List.length l)%nat -> firstn (S j) (update l j v) = firstn j l ++ [v].
Proof.
  intros Hj. unfold update.
  assert (Hk : List.length (firstn j l) = j)
    by (rewrite length_firstn; lia).
  rewrite firstn_app, Hk, firstn_all2 by lia.
  replace (S j - j)%nat with 1%nat by lia. reflexivity.
Qed.

Lemma firstn_whole (l1 l2 : list Z) (n : nat) :
  List.length l1 = n -> List.length l2 = n ->
  firstn n l1 = firstn n l2 -> l1 = l2.
Proof.
  intros H1 H2. rewrite !firstn_all2 by lia. tauto.
Qed.

Lemma update_In (l : list Z) (k : nat) (v x : Z) :
  In x (update l k v) -> x = v \/ In x l.
Proof.
  unfold update. rewrite in_app_iff. cbn [In].
  intros [H|[H|H]].
  - right. rewrite <- (firstn_skipn k l). apply in_or_app. left. exact H.
  - left. symmetry. exact H.
  - right. rewrite <- (firstn_skipn (k + 1) l). apply in_or_app.
    right. exact H.
Qed.

Lemma mem_ok_inv (m : sketch) :
  mem_ok m = true ->
  ring_ok (timestamps m) = true
  /\ 0 <= curTimestampPos m < Z.of_nat MAX_STAMPS.
Proof.
  unfold mem_ok. rewrite !andb_true_iff, Z.leb_le, Z.ltb_lt. tauto.
Qed.

(** The handler runs without fault and keeps the ring well formed. *)
Lemma rpmInterrupt_ok (now : Z) (m : sketch) :
  mem_ok m = true -> is_ulong now = true ->
  exists m', rpmInterrupt now m = Some m' /\ mem_ok m' = true.
Proof.
  intros Hm Hnow. destruct (mem_ok_inv m Hm) as [Hring Hpos].
  destruct (ring_ok_inv _ Hring) as [Hlen Hall].
  unfold rpmInterrupt.
  destruct (Z.ltb_spec (curTimestampPos m) 0); [lia|].
  assert (Hin : (Z.to_nat (curTimestampPos m)
                 < List.length (timestamps m))%nat)
    by (rewrite Hlen; unfold MAX_STAMPS in *; lia).
  rewrite (store_inside _ _ _ Hin). cbn [bind].
  eexists. split; [reflexivity|].
  unfold mem_ok. cbn [timestamps curTimestampPos].
  rewrite !andb_true_iff, Z.leb_le, Z.ltb_lt. split; [split|].
  - unfold ring_ok. rewrite andb_true_iff, Nat.eqb_eq, forallb_forall.
    split.
    + rewrite update_length by exact Hin. exact Hlen.
    + intros x Hx. apply update_In in Hx. destruct Hx as [->|Hx].
      * exact Hnow.
      * apply is_ulong_range, Hall, Hx.
  - destruct (curTimestampPos m + 1 >=? Z.of_nat MAX_STAMPS); lia.
  - destruct (Z.geb_spec (curTimestampPos m + 1) (Z.of_nat MAX_STAMPS));
      unfold MAX_STAMPS in *; lia.
Qed.

Lemma copy_rest_step (j : nat) :
  (j < ring_bytes)%nat -> copy_rest j = OpCopy j :: copy_rest (S j).
Proof.
  intros Hj. unfold copy_rest.
  replace (ring_bytes - j)%nat with (S (ring_bytes - S j)) by lia.
  reflexivity.
Qed.

Lemma copy_rest_end : copy_rest ring_bytes = [OpInterrupts].
Proof. reflexivity. Qed.

Lemma stage_done (seen : option (list Z)) (c : cpu) :
  stage seen c -> pc c = [] -> seen = Some (copied c).
Proof.
  intros [[H|H]|[[_ [H|H]]|[[_ (j & _ & H & _)]|[_ H]]]] Hpc;
    try (rewrite Hpc in H; discriminate H); [|exact H].
  rewrite Hpc in H. unfold copy_rest in H.
  destruct (map OpCopy (seq j (ring_bytes - j))); discriminate H.
Qed.

(** One step of a schedule keeps the invariant; the copied ring is
    recorded when [interrupts()] is passed, and it is the ring of the
    state before that step. *)
Lemma exec_invariant (a : action) (c : cpu) (seen : option (list Z)) :
  invariant seen c ->
  exists c' seen',
    exec a c = Some c'
    /\ invariant seen' c'
    /\ (seen' = seen \/ seen' = Some (timestamps (mem c))).
Proof.
  intros (Hmem & Hclk & Hst). destruct a.
  - (* Tick *)
    eexists. exists seen. split; [reflexivity|]. split; [|left; reflexivity].
    split; [exact Hmem|]. split.
    + cbn [clock]. apply is_ulong_range. unfold Avr.ulong. pow2.
      apply Z.mod_pos_bound. lia.
    + exact Hst.
  - (* Edge *)
    unfold exec. destruct (I_flag c) eqn:HI.
    + destruct (rpmInterrupt_ok (clock c) (mem c) Hmem Hclk)
        as (m' & Hrun & Hm').
      rewrite Hrun. cbn [bind].
      eexists. exists seen. split; [reflexivity|].
      split; [|left; reflexivity].
      split; [exact Hm'|]. split; [exact Hclk|].
      destruct Hst as [H|[[Hf _]|[[Hf _]|H]]].
      * left. exact H.
      * rewrite HI in Hf. discriminate Hf.
      * rewrite HI in Hf. discriminate Hf.
      * right. right. right. exact H.
    + eexists. exists seen. split; [reflexivity|].
      split; [|left; reflexivity].
      split; [exact Hmem|]. split; [exact Hclk|].
      unfold stage, copied in *. cbn [pc I_flag ts mem].
      rewrite HI in Hst. exact Hst.
  - (* Step *)
    unfold exec.
    destruct Hst as [[H|H]|[[Hf [H|H]]|[[Hf (j & Hj & H & Hlen & Hcopy)]|
                                         [H Hseen]]]].
    + rewrite H. cbn [calculateRPM_code app exec_op].
      eexists. exists seen. split; [reflexivity|].
      split; [|left; reflexivity].
      split; [exact Hmem|]. split; [exact Hclk|].
      left. right. reflexivity.
    + rewrite H. cbn [calculateRPM_code app tl exec_op].
      eexists. exists seen. split; [reflexivity|].
      split; [|left; reflexivity].
      split; [exact Hmem|]. split; [exact Hclk|].
      right. left. split; [reflexivity|]. left. reflexivity.
    + rewrite H. cbn [exec_op].
      eexists. exists seen. split; [reflexivity|].
      split; [|left; reflexivity].
      split; [exact Hmem|]. split; [exact Hclk|].
      right. left. split; [exact Hf|]. right. reflexivity.
    + rewrite H. cbn [exec_op].
      eexists. exists seen. split; [reflexivity|].
      split; [|left; reflexivity].
      split; [exact Hmem|]. split; [exact Hclk|].
      right. right. left. split; [exact Hf|].
      exists 0%nat. cbn [pc ts mem firstn].
      split; [lia|]. split; [reflexivity|].
      split; [apply repeat_length|reflexivity].
    + destruct (mem_ok_inv _ Hmem) as [Hring _].
      destruct (ring_ok_inv _ Hring) as [Hfive Hall].
      assert (Hbytes : List.length (bytes_of_ring (timestamps (mem c)))
                       = ring_bytes).
      { rewrite bytes_of_ring_length, Hfive. reflexivity. }
      destruct (Nat.eq_dec j ring_bytes) as [->|Hne].
      * (* interrupts() *)
        rewrite H, copy_rest_end. cbn [exec_op].
        assert (Hm : exists m',
                   (if INTF0 c then rpmInterrupt (clock c) (mem c)
                    else Some (mem c)) = Some m'
                   /\ mem_ok m' = true).
        { destruct (INTF0 c).
          - apply rpmInterrupt_ok; assumption.
          - eauto. }
        destruct Hm as (m' & -> & Hm'). cbn [bind].
        eexists. exists (Some (copied c)). split; [reflexivity|].
        split.
        -- split; [exact Hm'|]. split; [exact Hclk|].
           right. right. right. split; reflexivity.
        -- right. f_equal. unfold copied.
           rewrite (firstn_whole _ _ _ Hlen Hbytes Hcopy).
           apply ring_of_bytes_of_ring, Hall.
      * (* one more byte *)
        assert (Hlt : (j < ring_bytes)%nat) by lia.
        rewrite H, (copy_rest_step j Hlt). cbn [exec_op].
        rewrite store_inside by (rewrite Hlen; exact Hlt). cbn [bind].
        eexists. exists seen. split; [reflexivity|].
        split; [|left; reflexivity].
        split; [exact Hmem|]. split; [exact Hclk|].
        right. right. left. split; [exact Hf|].
        exists (S j). cbn [pc ts mem].
        split; [lia|]. split; [reflexivity|].
        split; [rewrite update_length by (rewrite Hlen; exact Hlt);
                exact Hlen|].
        rewrite firstn_update by (rewrite Hlen; exact Hlt).
        rewrite firstn_succ by (rewrite Hbytes; exact Hlt).
        rewrite Hcopy. reflexivity.
    + rewrite H. exists c, seen. split; [reflexivity|].
      split; [|left; reflexivity].
      split; [exact Hmem|]. split; [exact Hclk|].
      right. right. right. split; assumption.
Qed.

(** Along every schedule the program runs without fault, and whenever
    it is past [interrupts()], its copy is the ring of a state of the
    run, or the ring recorded before the run. *)
Lemma run_invariant (sched : list action) :
  forall (c : cpu) (seen : option (list Z)),
    invariant seen c ->
    exists h,
      run sched c = Some h
      /\ (forall c0, In c0 h -> mem_ok (mem c0) = true)
      /\ forall c', In c' h -> pc c' = [] ->
           (exists c0, In c0 h /\ copied c' = timestamps (mem c0))
           \/ seen = Some (copied c').
Proof.
  induction sched as [|a sched IH]; intros c seen Hinv.
  - exists [c]. split; [reflexivity|]. split.
    + intros c0 [<-|[]]. apply Hinv.
    + intros c' [<-|[]] Hpc. right.
      destruct Hinv as (_ & _ & Hst). apply (stage_done _ _ Hst Hpc).
  - destruct (exec_invariant a c seen Hinv)
      as (c1 & seen1 & Hex & Hinv1 & Hs).
    destruct (IH c1 seen1 Hinv1) as (h1 & Hrun & Hok & Hh1).
    exists (c :: h1). split.
    { cbn [run]. rewrite Hex. cbn [bind]. rewrite Hrun. reflexivity. }
    split.
    { intros c0 [<-|Hin]; [apply Hinv|apply Hok, Hin]. }
    intros c' [<-|Hin] Hpc.
    + right. destruct Hinv as (_ & _ & Hst). apply (stage_done _ _ Hst Hpc).
    + destruct (Hh1 c' Hin Hpc) as [(c0 & Hc0 & E)|E].
      * left. exists c0. split; [right; exact Hc0|exact E].
      * destruct Hs as [->| ->].
        -- right. exact E.
        -- left. exists c. split; [left; reflexivity|].
           injection E as E. symmetry. exact E.
Qed.

(** Without [noInterrupts()] the copy can tear: slot 0 changes from 255
    to 256 after its first byte is copied, and the copy reads 511, a
    value the ring never held. *)
Lemma unprotected_copy_tears :
  exists h,
    run torn_schedule torn_start = Some h
    /\ pc (last h torn_start) = []
    /\ copied (last h torn_start) = [511; 0; 0; 0; 0]
    /\ forall c0, In c0 h -> timestamps (mem c0) <> [511; 0; 0; 0; 0].
Proof.
  eexists. split; [vm_compute; reflexivity|].
  split; [reflexivity|]. split; [reflexivity|].
  intros c0 Hin.
  repeat (destruct Hin as [<-|Hin]; [vm_compute; discriminate|]).
  destruct Hin.
Qed.

(** With [noInterrupts()] the same edge is latched and served at
    [interrupts()]: the copy is the ring as it was, and the new stamp is
    in the ring afterwards. *)
Lemma protected_copy_whole :
  exists h,
    run ([Step] ++ torn_schedule ++ [Step])
        (start calculateRPM_code (mem torn_start) 256) = Some h
    /\ pc (last h torn_start) = []
    /\ copied (last h torn_start) = [255; 0; 0; 0; 0]
    /\ timestamps (mem (last h torn_start)) = [256; 0; 0; 0; 0].
Proof.
  eexists. split; [vm_compute; reflexivity|].
  repeat split; reflexivity.
Qed.

(** C9.  Whatever the edges and clock ticks that fall between the steps
    of [calculateRPM], the program runs without fault, and once it is
    past [interrupts()] its local copy is the ring of one state of the
    run: the copy the sequential model takes of that ring.  No slot is
    torn, because the handler cannot run between [noInterrupts()] and
    [interrupts()]. *)
Theorem snapshot_is_atomic (m : sketch) (now : Z) (sched : list action) :
  mem_ok m = true -> is_ulong now = true ->
  exists h,
    run sched (start calculateRPM_code m now) = Some h
    /\ forall c, In c h -> pc c = [] ->
         exists c0,
           In c0 h
           /\ copied c = timestamps (mem c0)
           /\ copied c = snapshot (timestamps (mem c0)).
Proof.
  intros Hm Hnow.
  destruct (run_invariant sched (start calculateRPM_code m now) None)
    as (h & Hrun & Hok & Hh).
  { split; [exact Hm|]. split; [exact Hnow|]. left. left. reflexivity. }
  exists h. split; [exact Hrun|].
  intros c Hin Hpc. destruct (Hh c Hin Hpc) as [(c0 & Hc0 & E)|E].
  - exists c0. split; [exact Hc0|]. split; [exact E|].
    rewrite snapshot_id; [exact E|].
    apply ring_ok_inv. apply (mem_ok_inv _ (Hok c0 Hc0)).
  - discriminate E.
Qed.

Lemma snapshot_is_atomic_witness :
  exists h,
    run ([Step; Step; Step; Step; Step; Edge; Tick] ++ repeat Step 21)
        (start calculateRPM_code
               (mkSketch [0; 0; 0; 0] [255; 0; 0; 0; 0] 0 0 0 0
                         EmptyString [])
               256)
    = Some h
    /\ forall c, In c h -> pc c = [] ->
         exists c0,
           In c0 h
           /\ copied c = timestamps (mem c0)
           /\ copied c = snapshot (timestamps (mem c0)).
Proof.
  exact (snapshot_is_atomic
           (mkSketch [0; 0; 0; 0] [255; 0; 0; 0; 0] 0 0 0 0 EmptyString [])
           256
           ([Step; Step; Step; Step; Step; Edge; Tick] ++ repeat Step 21)
           eq_refl eq_refl).
Defined.

End IrqProofs.

(** * Further properties of the estimator *)

(** X1.  The age [calculateRPM] computes for a slot is symmetric in the
    clock value and the stamp, and it survives the wrap of the 32-bit
    millisecond clock: a stamp taken [d] ms before (or after) [now], with
    [d] at most 2^31, has age [d] even when the clock wrapped in
    between. *)
Theorem tsDiff_wraparound (now t : Z) :
  is_ulong now = true -> is_ulong t = true ->
  tsDiff now t = tsDiff t now
  /\ (forall d, 0 <= d <= 2 ^ 31 -> now = (t + d) mod 2 ^ 32 ->
        tsDiff now t = d)
  /\ (forall d, 0 <= d <= 2 ^ 31 -> t = (now + d) mod 2 ^ 32 ->
        tsDiff now t = d).
Proof.
  intros Hn Ht. apply is_ulong_range in Hn, Ht.
  rewrite (tsDiff_clock_distance now t Hn Ht),
          (tsDiff_clock_distance t now Ht Hn).
  unfold clock_distance. pow2. repeat split.
  - apply Z.min_comm.
  - intros d Hd E. Z.div_mod_to_equations. lia.
  - intros d Hd E. Z.div_mod_to_equations. lia.
Qed.

Lemma tsDiff_wraparound_witness :
  tsDiff 5 4294967286 = 15.
Proof.
  apply (proj1 (proj2 (tsDiff_wraparound 5 4294967286 eq_refl eq_refl))).
  - vm_compute. split; discriminate.
  - reflexivity.
Defined.

Lemma binary_round_aux_sign (mx ex : Z) (lx : location) :
  not_negative (binary_round_aux F32.prec F32.emax false mx ex lx).
Proof.
  intros m e. unfold binary_round_aux.
  destruct (shr_fexp F32.prec F32.emax mx ex lx) as [mrs' e'].
  destruct (shr_fexp F32.prec F32.emax
              (round_nearest_even (shr_m mrs') (loc_of_shr_record mrs'))
              e' loc_Exact) as [mrs'' e''].
  destruct (shr_m mrs''); try discriminate.
  destruct (e'' <=? F32.emax - F32.prec); discriminate.
Qed.

Lemma of_Z_sign (z : Z) : 0 <= z -> not_negative (F32.of_Z z).
Proof.
  intros Hz. unfold F32.of_Z, binary_normalize.
  destruct z as [|p|p]; [intros m e; discriminate| |lia].
  unfold binary_round.
  destruct (shl_align p 0 (fexp F32.prec F32.emax (Z.pos (digits2_pos p) + 0)))
    as [mz ez].
  apply binary_round_aux_sign.
Qed.

Lemma div_sign (x y : spec_float) :
  not_negative x -> not_negative y -> not_negative (F32.div x y).
Proof.
  intros Hx Hy. unfold F32.div, SFdiv.
  destruct x as [sx|sx| |sx mx ex], y as [sy|sy| |sy my ey];
    try (intros m e; discriminate).
  destruct sx; [exfalso; apply (Hx mx ex); reflexivity|].
  destruct sy; [exfalso; apply (Hy my ey); reflexivity|].
  destruct (SFdiv_core_binary F32.prec F32.emax (Z.pos mx) ex (Z.pos my) ey)
    as [[mz ez] lz].
  apply binary_round_aux_sign.
Qed.

Lemma mul_sign (x y : spec_float) :
  not_negative x -> not_negative y -> not_negative (F32.mul x y).
Proof.
  intros Hx Hy. unfold F32.mul, SFmul.
  destruct x as [sx|sx| |sx mx ex], y as [sy|sy| |sy my ey];
    try (intros m e; discriminate).
  destruct sx; [exfalso; apply (Hx mx ex); reflexivity|].
  destruct sy; [exfalso; apply (Hy my ey); reflexivity|].
  apply binary_round_aux_sign.
Qed.

Lemma to_int_range (f : spec_float) (v : Z) :
  not_negative f -> F32.to_int f = Some v -> 0 <= v <= Avr.INT_MAX.
Proof.
  intros Hf. unfold F32.to_int.
  destruct f as [s|s| |s m e]; try discriminate.
  - intros [= <-]. unfold Avr.INT_MAX. lia.
  - destruct s; [exfalso; apply (Hf m e); reflexivity|].
    destruct (Z.leb_spec Avr.INT_MIN (F32.trunc false m e)); [|discriminate].
    destruct (Z.leb_spec (F32.trunc false m e) Avr.INT_MAX); [|discriminate].
    cbn [andb]. intros [= <-]. split; [|assumption].
    unfold F32.trunc. destruct e.
    + apply Z.shiftl_nonneg. lia.
    + apply Z.shiftl_nonneg. lia.
    + apply Z.shiftr_nonneg. lia.
Qed.

Lemma rpm_of_range (revs timeDiff v : Z) :
  0 <= revs -> 0 <= timeDiff -> rpm_of revs timeDiff = Some v ->
  0 <= v <= Avr.INT_MAX.
Proof.
  intros Hr Hd. unfold rpm_of, rps_of, elapsedSeconds.
  apply to_int_range.
  apply mul_sign; [|apply of_Z_sign; lia].
  apply div_sign; [apply of_Z_sign; exact Hr|].
  apply div_sign; apply of_Z_sign; lia.
Qed.

(** The estimate fits the [int] it is returned in and is not negative. *)
Lemma calculateRPM_int (now : Z) (ts : list Z) (rpm : Z) :
  calculateRPM now ts = Some rpm -> 0 <= rpm <= Avr.INT_MAX.
Proof.
  unfold calculateRPM.
  destruct (Z.gtb_spec (datapoints (scan now (snapshot ts))) 1) as [Hgt|Hle].
  - apply rpm_of_range; [lia|].
    unfold Avr.abs_ulong, Avr.ulong. pow2.
    destruct (Z.gtb_spec ((high (scan now (snapshot ts))
                           - low (scan now (snapshot ts))) mod 4294967296) 0);
      [lia|].
    apply Z.mod_pos_bound. lia.
  - intros [= <-]. unfold Avr.INT_MAX. lia.
Qed.

(** X2.  Whenever [calculateRPM] returns, its result lies between 0 and
    32767: the estimate is never negative, so that the console line never
    carries a minus sign. *)
Theorem calculateRPM_range (now : Z) (ts : list Z) (rpm : Z) :
  calculateRPM now ts = Some rpm ->
  0 <= rpm <= 32767 /\ print_int rpm = decimal rpm.
Proof.
  intros H. apply calculateRPM_int in H.
  change Avr.INT_MAX with 32767 in H. split; [exact H|].
  unfold print_int. destruct (Z.ltb_spec rpm 0); [lia|reflexivity].
Qed.

Lemma calculateRPM_range_witness :
  calculateRPM 3000 [1000; 1500; 2000; 2500; 3000] = Some 120
  /\ 0 <= 120 <= 32767.
Proof.
  assert (H : calculateRPM 3000 [1000; 1500; 2000; 2500; 3000] = Some 120)
    by (vm_compute; reflexivity).
  split; [exact H|].
  apply (calculateRPM_range 3000 [1000; 1500; 2000; 2500; 3000] 120 H).
Defined.

Lemma accept_low_in (vs : list Z) (st : scan_state) :
  In (low (fold_left accept vs st)) (low st :: vs).
Proof.
  revert st. induction vs as [|t vs IH]; intros st; [left; reflexivity|].
  cbn [fold_left]. destruct (IH (accept st t)) as [H|H].
  - rewrite <- H. cbn [accept low].
    destruct ((low st =? 0) || (t <=? low st)).
    + right. left. reflexivity.
    + left. reflexivity.
  - right. right. exact H.
Qed.

Lemma fold_max_ge (vs : list Z) (x : Z) :
  forall t, In t vs -> t <= fold_left Z.max vs x.
Proof.
  revert x. induction vs as [|u vs IH]; intros x t []; cbn [fold_left].
  - subst u. pose proof (fold_max_le vs (Z.max x t)). lia.
  - apply IH. assumption.
Qed.

Lemma fold_min_in (vs : list Z) (x : Z) :
  In (fold_left Z.min vs x) (x :: vs).
Proof.
  revert x. induction vs as [|u vs IH]; intros x; cbn [fold_left];
    [left; reflexivity|].
  destruct (IH (Z.min x u)) as [H|H].
  - rewrite <- H.
    destruct (Z.min_spec x u) as [[_ E]|[_ E]]; rewrite E.
    + left. reflexivity.
    + right. left. reflexivity.
  - right. right. exact H.
Qed.

Lemma minimum_of_spec (l : list Z) (m : Z) :
  minimum_of l = Some m <-> In m l /\ forall x, In x l -> m <= x.
Proof.
  split.
  - intros H. split; [|apply (minimum_of_le l m H)].
    destruct l as [|x l]; [discriminate|]. injection H as <-.
    apply fold_min_in.
  - intros [Hin Hle]. destruct l as [|x l]; [destruct Hin|].
    cbn [minimum_of]. f_equal.
    pose proof (fold_min_in l x) as H1.
    pose proof (fold_min_le l x) as [H2 H3].
    assert (fold_left Z.min l x <= m).
    { destruct Hin as [<-|Hin]; [exact H2|apply H3, Hin]. }
    specialize (Hle _ H1). lia.
Qed.

Lemma maximum_of_spec (l : list Z) (m : Z) :
  maximum_of l = Some m <-> In m l /\ forall x, In x l -> x <= m.
Proof.
  split.
  - intros H. destruct l as [|x l]; [discriminate|]. injection H as <-.
    split; [apply fold_max_in|].
    intros y [<-|Hy]; [apply fold_max_le|apply fold_max_ge, Hy].
  - intros [Hin Hle]. destruct l as [|x l]; [destruct Hin|].
    cbn [maximum_of]. f_equal.
    pose proof (fold_max_in l x) as H1.
    assert (m <= fold_left Z.max l x).
    { destruct Hin as [<-|Hin]; [apply fold_max_le|apply fold_max_ge, Hin]. }
    specialize (Hle _ H1). lia.
Qed.

(** X3.  When at least one slot is in the window, the scan loop ends with
    [high] the largest stamp of the window and [low] one of the stamps of
    the window, [low <= high], and the [abs] applied to [high - low]
    changes nothing. *)
Theorem scan_brackets (now : Z) (ts : list Z) :
  ring_ok ts = true -> is_ulong now = true ->
  valid_stamps now ts <> [] ->
  let st := scan now (snapshot ts) in
  maximum_of (valid_stamps now ts) = Some (high st)
  /\ In (low st) (valid_stamps now ts)
  /\ low st <= high st
  /\ Avr.abs_ulong (Avr.ulong (high st - low st)) = high st - low st.
Proof.
  intros Hts Hnow Hne. cbv zeta.
  rewrite (scan_summary now ts Hts Hnow).
  pose proof (valid_stamps_range now ts Hts) as Hrange.
  destruct (valid_stamps now ts) as [|t vs] eqn:E; [contradiction|].
  assert (Hmax : maximum_of (t :: vs)
                 = Some (high (fold_left accept (t :: vs) (mkScan 0 0 0)))).
  { rewrite accept_high_init; [reflexivity|].
    intros u Hu. specialize (Hrange u Hu). lia. }
  assert (Hlow : In (low (fold_left accept (t :: vs) (mkScan 0 0 0)))
                    (t :: vs)).
  { cbn [fold_left]. apply accept_low_in. }
  split; [exact Hmax|]. split; [exact Hlow|].
  apply maximum_of_spec in Hmax. destruct Hmax as [Hin Hle].
  pose proof (Hle _ Hlow) as Hord.
  split; [exact Hord|].
  pose proof (Hrange _ Hin) as Hh. pose proof (Hrange _ Hlow) as Hl.
  unfold Avr.abs_ulong, Avr.ulong. pow2.
  rewrite Z.mod_small by lia.
  destruct (Z.gtb_spec
              (high (fold_left accept (t :: vs) (mkScan 0 0 0))
               - low (fold_left accept (t :: vs) (mkScan 0 0 0))) 0);
    [reflexivity|].
  rewrite Z.mod_small by lia. lia.
Qed.

Lemma scan_brackets_witness :
  low (scan 2700 (snapshot [0; 1000; 2700; 100000; 100000]))
  <= high (scan 2700 (snapshot [0; 1000; 2700; 100000; 100000])).
Proof.
  apply (scan_brackets 2700 [0; 1000; 2700; 100000; 100000]
           eq_refl eq_refl).
  vm_compute. discriminate.
Defined.

(** The result in terms of the number of slots in the window and their
    extremes, when no slot in the window is zero. *)
Lemma calculateRPM_by_extremes (now : Z) (ts : list Z) (lo hi : Z) :
  ring_ok ts = true -> is_ulong now = true ->
  (forall t, In t (valid_stamps now ts) -> 0 < t) ->
  minimum_of (valid_stamps now ts) = Some lo ->
  maximum_of (valid_stamps now ts) = Some hi ->
  lo <= hi
  /\ calculateRPM now ts
     = if Z.of_nat (List.length (valid_stamps now ts)) >? 1
       then rpm_of (Z.of_nat (List.length (valid_stamps now ts)) - 1)
                   (hi - lo)
       else Some 0.
Proof.
  intros Hts Hnow Hpos Hmin Hmax.
  pose proof (valid_stamps_range now ts Hts) as Hrange.
  assert (Hord : lo <= hi).
  { apply minimum_of_spec in Hmin. apply maximum_of_spec in Hmax.
    apply Hmax, Hmin. }
  split; [exact Hord|].
  unfold calculateRPM. rewrite (scan_summary now ts Hts Hnow).
  rewrite accept_datapoints, accept_low_init, accept_high_init, Hmin, Hmax.
  - cbn [datapoints]. rewrite Z.add_0_l.
    destruct (Z.of_nat (List.length (valid_stamps now ts)) >? 1);
      [|reflexivity].
    f_equal.
    assert (Hh : 0 <= hi < 2 ^ 32)
      by (apply Hrange; apply maximum_of_spec in Hmax; apply Hmax).
    assert (Hl : 0 <= lo < 2 ^ 32)
      by (apply Hrange; apply minimum_of_spec in Hmin; apply Hmin).
    unfold Avr.abs_ulong, Avr.ulong. pow2.
    rewrite Z.mod_small by lia.
    destruct (Z.gtb_spec (hi - lo) 0); [reflexivity|].
    rewrite Z.mod_small by lia. lia.
  - intros t Ht. specialize (Hrange t Ht). lia.
  - exact Hpos.
Qed.

Lemma Permutation_valid_stamps (now : Z) (l l' : list Z) :
  Permutation l l' -> Permutation (valid_stamps now l) (valid_stamps now l').
Proof.
  unfold valid_stamps. induction 1 as [|x l l' _ IH|x y l|l l1 l2 _ IH1 _ IH2].
  - constructor.
  - cbn [filter]. destruct (in_window now x); [constructor|]; exact IH.
  - cbn [filter]. destruct (in_window now x), (in_window now y);
      try apply Permutation_refl. constructor.
  - apply (Permutation_trans IH1 IH2).
Qed.

Lemma Permutation_ring_ok (l l' : list Z) :
  Permutation l l' -> ring_ok l = true -> ring_ok l' = true.
Proof.
  intros HP H. apply ring_ok_inv in H. destruct H as [Hlen Hall].
  unfold ring_ok. rewrite andb_true_iff, Nat.eqb_eq, forallb_forall. split.
  - rewrite <- (Permutation_length HP). exact Hlen.
  - intros x Hx. apply is_ulong_range, Hall.
    apply (Permutation_in x (Permutation_sym HP) Hx).
Qed.

Lemma Permutation_minimum_of (l l' : list Z) :
  Permutation l l' -> minimum_of l = minimum_of l'.
Proof.
  intros HP. destruct (minimum_of l) as [m|] eqn:E.
  - symmetry. apply minimum_of_spec. apply minimum_of_spec in E.
    destruct E as [Hin Hle]. split.
    + apply (Permutation_in m HP Hin).
    + intros x Hx. apply Hle, (Permutation_in x (Permutation_sym HP) Hx).
  - destruct l; [|discriminate].
    apply Permutation_nil in HP. subst l'. reflexivity.
Qed.

Lemma Permutation_maximum_of (l l' : list Z) :
  Permutation l l' -> maximum_of l = maximum_of l'.
Proof.
  intros HP. destruct (maximum_of l) as [m|] eqn:E.
  - symmetry. apply maximum_of_spec. apply maximum_of_spec in E.
    destruct E as [Hin Hle]. split.
    + apply (Permutation_in m HP Hin).
    + intros x Hx. apply Hle, (Permutation_in x (Permutation_sym HP) Hx).
  - destruct l; [|discriminate].
    apply Permutation_nil in HP. subst l'. reflexivity.
Qed.

(** The result does not depend on the order of the slots, as long as no
    slot in the window is zero. *)
Lemma calculateRPM_Permutation (now : Z) (ts ts' : list Z) :
  Permutation ts ts' ->
  ring_ok ts = true -> is_ulong now = true ->
  (forall t, In t (valid_stamps now ts) -> 0 < t) ->
  calculateRPM now ts = calculateRPM now ts'.
Proof.
  intros HP Hts Hnow Hpos.
  pose proof (Permutation_ring_ok _ _ HP Hts) as Hts'.
  pose proof (Permutation_valid_stamps now _ _ HP) as HV.
  assert (Hpos' : forall t, In t (valid_stamps now ts') -> 0 < t).
  { intros t Ht. apply Hpos, (Permutation_in t (Permutation_sym HV) Ht). }
  destruct (minimum_of (valid_stamps now ts)) as [lo|] eqn:Emin.
  - destruct (maximum_of (valid_stamps now ts)) as [hi|] eqn:Emax.
    2:{ destruct (valid_stamps now ts); discriminate. }
    destruct (calculateRPM_by_extremes now ts lo hi Hts Hnow Hpos Emin Emax)
      as [_ ->].
    rewrite (Permutation_minimum_of _ _ HV) in Emin.
    rewrite (Permutation_maximum_of _ _ HV) in Emax.
    destruct (calculateRPM_by_extremes now ts' lo hi Hts' Hnow Hpos' Emin Emax)
      as [_ ->].
    rewrite (Permutation_length HV). reflexivity.
  - destruct (valid_stamps now ts) eqn:E; [|discriminate].
    apply Permutation_nil in HV.
    unfold calculateRPM.
    rewrite (scan_datapoints now ts Hts Hnow),
            (scan_datapoints now ts' Hts' Hnow), E, HV.
    reflexivity.
Qed.

(** X4.  The estimate does not depend on where in the ring the stamps
    sit: two rings that hold the same stamps in a different order give the
    same result, provided no slot in the window is zero (the scan loop
    reads [low == 0] as unset). *)
Theorem calculateRPM_order_independent (now : Z) (ts ts' : list Z) :
  ring_ok ts = true -> is_ulong now = true ->
  Permutation ts ts' ->
  (forall t, In t ts -> in_window now t = true -> 0 < t) ->
  calculateRPM now ts' = calculateRPM now ts.
Proof.
  intros Hts Hnow HP Hpos. symmetry.
  apply calculateRPM_Permutation; try assumption.
  intros t Ht. unfold valid_stamps in Ht. apply filter_In in Ht.
  apply Hpos; tauto.
Qed.

Lemma calculateRPM_order_independent_witness :
  calculateRPM 3000 [2500; 3000; 1000; 1500; 2000]
  = calculateRPM 3000 [1000; 1500; 2000; 2500; 3000].
Proof.
  apply (calculateRPM_order_independent
           3000 [1000; 1500; 2000; 2500; 3000]
           [2500; 3000; 1000; 1500; 2000] eq_refl eq_refl).
  - change [2500; 3000; 1000; 1500; 2000]
      with ([2500; 3000] ++ [1000; 1500; 2000]).
    change [1000; 1500; 2000; 2500; 3000]
      with ([1000; 1500; 2000] ++ [2500; 3000]).
    apply Permutation_app_comm.
  - cbn [In]. intros t Ht _.
    repeat (destruct Ht as [<-|Ht]; [lia|]). destruct Ht.
Defined.

Lemma rpm_of_undefined (revs timeDiff : Z) :
  1 <= revs <= 4 -> 0 <= timeDiff < 2 * MAX_STAMP_AGE - 1 ->
  rpm_of revs timeDiff = None
  <-> timeDiff = 0 \/ Avr.INT_MAX < revs * 60000 / timeDiff.
Proof.
  intros Hr Hd. destruct (Z.eq_dec timeDiff 0) as [->|Hnz].
  - split; [left; reflexivity|intros _; apply rpm_of_zero_interval, Hr].
  - assert (Hacc : rpm_accurate revs timeDiff = true)
      by (apply rpm_of_accuracy; lia).
    unfold rpm_accurate, exact_rpm_floor in Hacc.
    destruct (rpm_of revs timeDiff) as [v|] eqn:E.
    + pose proof (rpm_of_range revs timeDiff v ltac:(lia) ltac:(lia) E) as Hv.
      apply orb_true_iff in Hacc. rewrite !Z.eqb_eq in Hacc.
      unfold Avr.INT_MAX in *. change (2 ^ 15 - 1) with 32767 in *.
      split; [discriminate|]. intros [H0|Hbig]; [contradiction|].
      exfalso.
      assert (Hq : revs * 60000 / timeDiff = 32768) by lia.
      pose proof (Z.div_mod (revs * 60000) timeDiff Hnz) as Hdm.
      pose proof (Z.mod_pos_bound (revs * 60000) timeDiff ltac:(lia)) as Hm.
      rewrite Hq in Hdm. lia.
    + apply Z.ltb_lt in Hacc. split; [intros _; right; exact Hacc|reflexivity].
Qed.

(** X5.  With [count >= 2] slots in the window, none of them zero, the
    smallest [lo] and the largest [hi], the result of [calculateRPM] is
    undefined exactly when all stamps of the window are equal (division by
    zero) or the exact quotient [(count - 1) * 60000 / (hi - lo)] exceeds
    32767 (the cast to [int] overflows). *)
Theorem calculateRPM_undefined_iff (now : Z) (ts : list Z) (count lo hi : Z) :
  ring_ok ts = true -> is_ulong now = true ->
  Z.of_nat (List.length (valid_stamps now ts)) = count ->
  2 <= count ->
  minimum_of (valid_stamps now ts) = Some lo ->
  maximum_of (valid_stamps now ts) = Some hi ->
  0 < lo -> hi - lo < 2 * MAX_STAMP_AGE - 1 ->
  calculateRPM now ts = None
  <-> lo = hi \/ 32767 < (count - 1) * 60000 / (hi - lo).
Proof.
  intros Hts Hnow Hcount Htwo Hmin Hmax Hlo Hspan.
  assert (Hpos : forall t, In t (valid_stamps now ts) -> 0 < t).
  { intros t Ht. pose proof (minimum_of_le _ _ Hmin t Ht). lia. }
  destruct (calculateRPM_by_extremes now ts lo hi Hts Hnow Hpos Hmin Hmax)
    as [Hord ->].
  rewrite Hcount. destruct (Z.gtb_spec count 1); [|lia].
  pose proof (valid_stamps_length now ts Hts) as Hlen.
  unfold MAX_STAMPS in Hlen.
  rewrite rpm_of_undefined by lia.
  change Avr.INT_MAX with 32767.
  split; (intros [E|E]; [left; lia|right; exact E]).
Qed.

Lemma calculateRPM_undefined_iff_witness :
  calculateRPM 10000 [9000; 9001; 0; 0; 0] = None
  <-> 9000 = 9001 \/ 32767 < (2 - 1) * 60000 / (9001 - 9000).
Proof.
  apply (calculateRPM_undefined_iff 10000 [9000; 9001; 0; 0; 0] 2 9000 9001
           eq_refl eq_refl eq_refl ltac:(lia) eq_refl eq_refl
           ltac:(lia) ltac:(vm_compute; reflexivity)).
Defined.

(** * Further properties of the ring *)

Lemma update_cons_0 (a : Z) (l : list Z) (v : Z) : update (a :: l) 0 v = v :: l.
Proof. reflexivity. Qed.

Lemma update_cons_S (a : Z) (l : list Z) (i : nat) (v : Z) :
  update (a :: l) (S i) v = a :: update l i v.
Proof. reflexivity. Qed.

Lemma nth_update_eq (buf : list Z) (i : nat) (v : Z) :
  (i < List.length buf)%nat -> nth i (update buf i v) 0 = v.
Proof.
  revert i. induction buf as [|a l IH]; intros i Hi; [cbn in Hi; lia|].
  destruct i as [|i]; [reflexivity|].
  rewrite update_cons_S. cbn [nth]. apply IH. cbn in Hi. lia.
Qed.

Lemma nth_update_neq (buf : list Z) (i j : nat) (v : Z) :
  (i < List.length buf)%nat -> j <> i ->
  nth j (update buf i v) 0 = nth j buf 0.
Proof.
  revert i j. induction buf as [|a l IH]; intros i j Hi Hne;
    [cbn in Hi; lia|].
  destruct i as [|i].
  - rewrite update_cons_0. destruct j; [contradiction|reflexivity].
  - rewrite update_cons_S. destruct j as [|j]; [reflexivity|].
    cbn [nth]. apply IH; [cbn in Hi; lia|congruence].
Qed.

(** X6.  On a well-formed ring the handler never faults: it writes the
    time into the slot at the cursor and into [lastStamp], leaves every
    other slot as it is, moves the cursor by one modulo 5, keeps the ring
    well formed, and touches neither the display buffer, [oldRpm], the
    display cursor, the console nor the pins. *)
Theorem rpmInterrupt_effect (now : Z) (sk : sketch) :
  Irq.mem_ok sk = true -> is_ulong now = true ->
  exists sk',
    rpmInterrupt now sk = Some sk'
    /\ nth (Z.to_nat (curTimestampPos sk)) (timestamps sk') 0 = now
    /\ (forall i, i <> Z.to_nat (curTimestampPos sk) ->
          nth i (timestamps sk') 0 = nth i (timestamps sk) 0)
    /\ curTimestampPos sk' = (curTimestampPos sk + 1) mod 5
    /\ lastStamp sk' = now
    /\ Irq.mem_ok sk' = true
    /\ DisplayBM sk' = DisplayBM sk
    /\ oldRpm sk' = oldRpm sk
    /\ __curCharacter sk' = __curCharacter sk
    /\ serial sk' = serial sk
    /\ pins sk' = pins sk.
Proof.
  intros Hm Hnow.
  destruct (IrqProofs.rpmInterrupt_ok now sk Hm Hnow) as (sk' & Hrun & Hok).
  exists sk'. split; [exact Hrun|].
  destruct (IrqProofs.mem_ok_inv sk Hm) as [Hring Hpos].
  destruct (ring_ok_inv _ Hring) as [Hlen _].
  assert (Hin : (Z.to_nat (curTimestampPos sk)
                 < List.length (timestamps sk))%nat)
    by (rewrite Hlen; unfold MAX_STAMPS in *; lia).
  unfold rpmInterrupt in Hrun.
  destruct (Z.ltb_spec (curTimestampPos sk) 0); [lia|].
  rewrite (store_inside _ _ _ Hin) in Hrun. cbn [bind] in Hrun.
  injection Hrun as <-. cbn [timestamps curTimestampPos lastStamp DisplayBM
                             oldRpm __curCharacter serial pins].
  split; [apply nth_update_eq, Hin|].
  split; [intros i Hi; apply nth_update_neq; assumption|].
  split.
  { change (Z.of_nat MAX_STAMPS) with 5 in *.
    destruct (Z.geb_spec (curTimestampPos sk + 1) 5);
      Z.div_mod_to_equations; lia. }
  split; [reflexivity|]. split; [exact Hok|].
  repeat split; reflexivity.
Qed.

Lemma rpmInterrupt_effect_witness :
  exists sk',
    rpmInterrupt 7000 (mkSketch dashes [1000; 2000; 3000; 4000; 5000]
                                4 5000 0 0 EmptyString [])
    = Some sk'
    /\ nth 4 (timestamps sk') 0 = 7000
    /\ curTimestampPos sk' = 0.
Proof.
  destruct (rpmInterrupt_effect
              7000 (mkSketch dashes [1000; 2000; 3000; 4000; 5000]
                             4 5000 0 0 EmptyString []) eq_refl eq_refl)
    as (sk' & H1 & H2 & _ & H3 & _).
  exists sk'. split; [exact H1|]. split; [exact H2|exact H3].
Defined.

Lemma rpmInterrupt_cursor (now : Z) (sk : sketch) :
  Irq.mem_ok sk = true -> is_ulong now = true ->
  exists sk',
    rpmInterrupt now sk = Some sk'
    /\ Irq.mem_ok sk' = true
    /\ curTimestampPos sk' = (curTimestampPos sk + 1) mod 5.
Proof.
  intros Hm Hnow.
  destruct (IrqProofs.rpmInterrupt_ok now sk Hm Hnow) as (sk' & Hrun & Hok).
  exists sk'. split; [exact Hrun|]. split; [exact Hok|].
  destruct (IrqProofs.mem_ok_inv sk Hm) as [_ Hpos].
  unfold rpmInterrupt in Hrun.
  destruct (store (timestamps sk) (Z.to_nat (curTimestampPos sk)) now)
    as [ts'|];
    [|destruct (curTimestampPos sk <? 0); discriminate Hrun].
  destruct (curTimestampPos sk <? 0); [discriminate Hrun|].
  cbn [bind] in Hrun. injection Hrun as <-. cbn [curTimestampPos].
  change (Z.of_nat MAX_STAMPS) with 5 in *.
  destruct (Z.geb_spec (curTimestampPos sk + 1) 5);
    Z.div_mod_to_equations; lia.
Qed.

Lemma interrupts_app (l1 l2 : list Z) (sk : sketch) :
  interrupts (l1 ++ l2) sk
  = match interrupts l1 sk with
    | Some sk' => interrupts l2 sk'
    | None => None
    end.
Proof.
  revert sk. induction l1 as [|a l1 IH]; intros sk; [reflexivity|].
  cbn [app interrupts]. destruct (rpmInterrupt a sk) as [sk1|]; cbn [bind];
    [apply IH|reflexivity].
Qed.

(** Any number of edges: the handler never faults and the cursor counts
    them modulo [MAX_STAMPS]. *)
Lemma interrupts_ok (nows : list Z) :
  forall sk,
    Irq.mem_ok sk = true -> forallb is_ulong nows = true ->
    exists sk',
      interrupts nows sk = Some sk'
      /\ Irq.mem_ok sk' = true
      /\ curTimestampPos sk'
         = (curTimestampPos sk + Z.of_nat (List.length nows)) mod 5.
Proof.
  induction nows as [|a nows IH]; intros sk Hm Hall.
  - exists sk. split; [reflexivity|]. split; [exact Hm|].
    destruct (IrqProofs.mem_ok_inv sk Hm) as [_ Hpos].
    change (Z.of_nat MAX_STAMPS) with 5 in Hpos. cbn [List.length].
    rewrite Z.add_0_r, Z.mod_small by lia. reflexivity.
  - cbn [forallb] in Hall. apply andb_true_iff in Hall.
    destruct Hall as [Ha Hall].
    destruct (rpmInterrupt_cursor a sk Hm Ha) as (sk1 & Hrun & Hm1 & Hp1).
    destruct (IH sk1 Hm1 Hall) as (sk' & Hrun' & Hm' & Hp').
    exists sk'. cbn [interrupts]. rewrite Hrun. cbn [bind].
    split; [exact Hrun'|]. split; [exact Hm'|].
    rewrite Hp', Hp1. cbn [List.length]. rewrite Nat2Z.inj_succ.
    Z.div_mod_to_equations. lia.
Qed.

(** Five edges overwrite the whole ring and bring the cursor back. *)
Lemma five_interrupts (sk : sketch) (a b c d e : Z) :
  Irq.mem_ok sk = true ->
  exists sk',
    interrupts [a; b; c; d; e] sk = Some sk'
    /\ timestamps sk' = ring_at (curTimestampPos sk) [a; b; c; d; e]
    /\ curTimestampPos sk' = curTimestampPos sk
    /\ lastStamp sk' = e.
Proof.
  intros Hm. destruct (IrqProofs.mem_ok_inv sk Hm) as [Hring Hpos].
  destruct (ring_ok_inv _ Hring) as [Hlen _].
  destruct sk as [bm ts pos ls old cur ser pn].
  cbn [timestamps curTimestampPos] in *.
  destruct (five_slots ts Hlen) as (t0 & t1 & t2 & t3 & t4 & ->).
  change (Z.of_nat MAX_STAMPS) with 5 in Hpos.
  assert (pos = 0 \/ pos = 1 \/ pos = 2 \/ pos = 3 \/ pos = 4)
    as [->|[->|[->|[->| ->]]]] by lia;
    eexists; (split; [vm_compute; reflexivity|]); repeat split;
    vm_compute; reflexivity.
Qed.

Lemma ring_at_Permutation (q : Z) (stamps : list Z) :
  Permutation (ring_at q stamps) stamps.
Proof.
  unfold ring_at.
  rewrite <- (firstn_skipn (MAX_STAMPS - Z.to_nat q) stamps) at 3.
  apply Permutation_app_comm.
Qed.

Lemma ring_at_oldest (q : Z) (a b c d e : Z) :
  0 <= q < 5 -> nth (Z.to_nat q) (ring_at q [a; b; c; d; e]) 0 = a.
Proof.
  intros Hq.
  assert (q = 0 \/ q = 1 \/ q = 2 \/ q = 3 \/ q = 4)
    as [->|[->|[->|[->| ->]]]] by lia; reflexivity.
Qed.

(** X7.  After any number of edges, the last five of them at the times
    [recent], the ring holds exactly these five times: in ring order from
    the cursor on, so that the slot at the cursor is the oldest of them,
    and [lastStamp] is the newest.  The cursor has advanced by the number
    of edges modulo 5. *)
Theorem ring_holds_last_five (sk : sketch) (older recent : list Z) :
  Irq.mem_ok sk = true ->
  forallb is_ulong (older ++ recent) = true ->
  List.length recent = MAX_STAMPS ->
  exists sk',
    interrupts (older ++ recent) sk = Some sk'
    /\ timestamps sk' = ring_at (curTimestampPos sk') recent
    /\ Permutation (timestamps sk') recent
    /\ nth (Z.to_nat (curTimestampPos sk')) (timestamps sk') 0
       = hd 0 recent
    /\ lastStamp sk' = last recent 0
    /\ curTimestampPos sk'
       = (curTimestampPos sk + Z.of_nat (List.length (older ++ recent)))
         mod 5.
Proof.
  intros Hm Hall Hlen.
  destruct (interrupts_ok (older ++ recent) sk Hm Hall)
    as (sk' & Hrun & Hm' & Hcur).
  exists sk'. split; [exact Hrun|].
  rewrite forallb_app in Hall. apply andb_true_iff in Hall.
  destruct Hall as [Hold Hrec].
  destruct (interrupts_ok older sk Hm Hold) as (sk1 & Hrun1 & Hm1 & _).
  rewrite interrupts_app, Hrun1 in Hrun.
  destruct (five_slots recent Hlen) as (a & b & c & d & e & ->).
  destruct (five_interrupts sk1 a b c d e Hm1)
    as (sk2 & Hrun2 & Hts & Hpos & Hlast).
  rewrite Hrun2 in Hrun. injection Hrun as <-.
  rewrite Hpos. split; [exact Hts|].
  split; [rewrite Hts; apply ring_at_Permutation|].
  split.
  { rewrite Hts. apply ring_at_oldest.
    apply (IrqProofs.mem_ok_inv sk1 Hm1). }
  split; [exact Hlast|].
  rewrite <- Hpos. exact Hcur.
Qed.

Lemma ring_holds_last_five_witness :
  exists sk',
    interrupts ([100; 200] ++ [300; 400; 500; 600; 700]) power_on = Some sk'
    /\ timestamps sk' = [600; 700; 300; 400; 500].
Proof.
  destruct (ring_holds_last_five power_on [100; 200]
              [300; 400; 500; 600; 700] eq_refl eq_refl eq_refl)
    as (sk' & Hrun & Hts & _ & _ & _ & Hcur).
  exists sk'. split; [exact Hrun|].
  rewrite Hts, Hcur. reflexivity.
Defined.

Lemma in_window_recent (now t : Z) :
  0 <= t -> t <= now -> now - t < MAX_STAMP_AGE -> now < 2 ^ 32 ->
  in_window now t = true.
Proof.
  unfold in_window, clock_distance, MAX_STAMP_AGE. pow2. intros.
  apply Z.ltb_lt. Z.div_mod_to_equations. lia.
Qed.

(** X8.  A wheel that turns steadily, one edge every [T] ms: after five
    edges, the first at a time other than 0, and as long as the first of
    them is less than [MAX_STAMP_AGE] old, [calculateRPM] computes four
    revolutions in [4 * T] ms and returns [60000 / T] rounded down, or one
    less; it is undefined only if [60000 / T] exceeds 32767. *)
Theorem steady_rotation (sk : sketch) (t0 T now : Z) :
  Irq.mem_ok sk = true ->
  0 < t0 -> 1 <= T ->
  t0 + 4 * T <= now -> now - t0 < MAX_STAMP_AGE -> now < 2 ^ 32 ->
  exists sk',
    interrupts [t0; t0 + T; t0 + 2 * T; t0 + 3 * T; t0 + 4 * T] sk = Some sk'
    /\ calculateRPM now (timestamps sk') = rpm_of 4 (4 * T)
    /\ match calculateRPM now (timestamps sk') with
       | Some rpm => rpm = 60000 / T \/ rpm = 60000 / T - 1
       | None => 32767 < 60000 / T
       end.
Proof.
  intros Hm Ht0 HT Hnow Hage Hwrap.
  set (stamps := [t0; t0 + T; t0 + 2 * T; t0 + 3 * T; t0 + 4 * T]).
  destruct (five_interrupts sk t0 (t0 + T) (t0 + 2 * T) (t0 + 3 * T)
              (t0 + 4 * T) Hm) as (sk' & Hrun & Hts & _ & _).
  fold stamps in Hrun, Hts.
  exists sk'. split; [exact Hrun|].
  assert (Hin : forall t, In t stamps -> t0 <= t <= t0 + 4 * T).
  { intros t Ht. unfold stamps in Ht. cbn [In] in Ht.
    repeat (destruct Ht as [<-|Ht]; [lia|]). destruct Ht. }
  assert (Hulong : is_ulong now = true) by (apply is_ulong_range; lia).
  assert (Hok : ring_ok stamps = true).
  { unfold ring_ok. rewrite andb_true_iff, forallb_forall.
    split; [reflexivity|].
    intros t Ht. apply is_ulong_range. specialize (Hin t Ht). lia. }
  assert (Hvalid : valid_stamps now stamps = stamps).
  { unfold valid_stamps. apply forallb_filter_id, forallb_forall.
    intros t Ht. specialize (Hin t Ht). apply in_window_recent; lia. }
  assert (Hmin : minimum_of (valid_stamps now stamps) = Some t0).
  { rewrite Hvalid. apply minimum_of_spec.
    split; [left; reflexivity|]. intros t Ht. apply (Hin t Ht). }
  assert (Hmax : maximum_of (valid_stamps now stamps) = Some (t0 + 4 * T)).
  { rewrite Hvalid. apply maximum_of_spec.
    split; [unfold stamps; cbn [In]; tauto|]. intros t Ht. apply (Hin t Ht). }
  assert (Hpos : forall t, In t (valid_stamps now stamps) -> 0 < t).
  { rewrite Hvalid. intros t Ht. specialize (Hin t Ht). lia. }
  assert (Hcalc : calculateRPM now (timestamps sk') = rpm_of 4 (4 * T)).
  { rewrite Hts.
    rewrite <- (calculateRPM_Permutation now stamps
                  (ring_at (curTimestampPos sk) stamps)
                  (Permutation_sym (ring_at_Permutation _ _))
                  Hok Hulong Hpos).
    destruct (calculateRPM_by_extremes now stamps t0 (t0 + 4 * T)
                Hok Hulong Hpos Hmin Hmax) as [_ ->].
    rewrite Hvalid. cbn [stamps List.length Z.of_nat].
    change (Z.pos (Pos.of_succ_nat 4) >? 1) with true. cbv iota.
    f_equal; lia. }
  split; [exact Hcalc|]. rewrite Hcalc.
  assert (Hacc : rpm_accurate 4 (4 * T) = true).
  { apply rpm_of_accuracy; unfold MAX_STAMP_AGE in *; lia. }
  unfold rpm_accurate, exact_rpm_floor in Hacc.
  rewrite (Z.div_mul_cancel_l 60000 T 4) in Hacc by lia.
  destruct (rpm_of 4 (4 * T)) as [v|].
  - apply orb_true_iff in Hacc. rewrite !Z.eqb_eq in Hacc. exact Hacc.
  - apply Z.ltb_lt in Hacc. exact Hacc.
Qed.

Lemma steady_rotation_witness :
  exists sk',
    interrupts [1000; 1000 + 500; 1000 + 2 * 500; 1000 + 3 * 500;
                1000 + 4 * 500] power_on = Some sk'
    /\ calculateRPM 3000 (timestamps sk') = rpm_of 4 (4 * 500).
Proof.
  destruct (steady_rotation power_on 1000 500 3000 eq_refl
              ltac:(lia) ltac:(lia) ltac:(lia)
              ltac:(unfold MAX_STAMP_AGE; lia) ltac:(reflexivity))
    as (sk' & H1 & H2 & _).
  exists sk'. split; [exact H1|exact H2].
Defined.

(** * Further properties of the display *)

Lemma table_pairs_keys (bm : list Z) (k v : Z) :
  In (k, v) (table_pairs bm) -> In k (table_keys bm).
Proof.
  induction bm as [|k0|k0 v0 rest IH] using table_ind; cbn;
    [tauto|tauto|].
  destruct (k0 =? 0); [cbn; tauto|]. cbn [In].
  intros [[= -> ->]|H]; [left; reflexivity|right; apply IH, H].
Qed.

Lemma table_keys_pairs (bm : list Z) (k : Z) :
  In k (table_keys bm) -> exists v, In (k, v) (table_pairs bm).
Proof.
  induction bm as [|k0|k0 v0 rest IH] using table_ind; cbn;
    [tauto|tauto|].
  destruct (k0 =? 0); [cbn; tauto|]. cbn [In].
  intros [->|H].
  - exists v0. left. reflexivity.
  - destruct (IH H) as [v Hv]. exists v. right. exact Hv.
Qed.

(** The lookup finds every pair of a table without repeated keys. *)
Lemma find_bitmap_pair (bm : list Z) (k v : Z) :
  NoDup (table_keys bm) -> In (k, v) (table_pairs bm) ->
  find_bitmap bm k = Some v.
Proof.
  induction bm as [|k0|k0 v0 rest IH] using table_ind; cbn;
    [tauto|tauto|].
  destruct (k0 =? 0); [cbn; tauto|]. cbn [In].
  intros Hnd [[= -> ->]|H].
  - rewrite Z.eqb_refl. reflexivity.
  - apply NoDup_cons_iff in Hnd. destruct Hnd as [Hnot Hnd].
    destruct (Z.eqb_spec k0 k) as [->|_].
    + exfalso. apply Hnot. apply (table_pairs_keys rest k v H).
    + apply IH; assumption.
Qed.

Lemma values_injective (l : list (Z * Z)) (a b v : Z) :
  NoDup (map snd l) -> In (a, v) l -> In (b, v) l -> a = b.
Proof.
  induction l as [|[k w] l IH]; cbn [map In snd]; [tauto|].
  intros Hnd Ha Hb. apply NoDup_cons_iff in Hnd. destruct Hnd as [Hnot Hnd].
  destruct Ha as [Ha|Ha], Hb as [Hb|Hb].
  - congruence.
  - exfalso. apply Hnot. injection Ha as _ ->.
    apply (in_map snd l (b, v) Hb).
  - exfalso. apply Hnot. injection Hb as _ ->.
    apply (in_map snd l (a, v) Ha).
  - apply IH; assumption.
Qed.

Ltac nodup_by_computation :=
  vm_compute;
  repeat (constructor;
          [let H := fresh in
           intros H; cbn [In] in H;
           repeat (destruct H as [H|H]; [discriminate H|]); exact H|]);
  constructor.

Lemma CharBitMap_keys_distinct : NoDup (table_keys CharBitMap).
Proof. nodup_by_computation. Qed.

Lemma CharBitMap_glyphs_distinct : NoDup (map snd (table_pairs CharBitMap)).
Proof. nodup_by_computation. Qed.

Lemma CharBitMap_glyphs_bytes :
  forallb (fun kv => is_byte (snd kv) && negb (snd kv =? 0))
          (table_pairs CharBitMap) = true.
Proof. reflexivity. Qed.

Lemma in_table_In (c : Z) :
  in_table c = true <-> In c (table_keys CharBitMap).
Proof.
  unfold in_table. rewrite existsb_exists. split.
  - intros (x & Hx & E). apply Z.eqb_eq in E. subst x. exact Hx.
  - intros H. exists c. split; [exact H|apply Z.eqb_refl].
Qed.

(** X9.  The lookup in a table without repeated keys finds the byte of
    every pair of the table.  [CharBitMap] has no repeated key; each of
    its characters is rendered as the byte listed beside it, which is
    never 0, the byte of an unmatched character; and no two characters of
    the table share a byte. *)
Theorem glyph_lookup :
  (forall bm k v,
      NoDup (table_keys bm) -> In (k, v) (table_pairs bm) ->
      find_bitmap bm k = Some v)
  /\ NoDup (table_keys CharBitMap)
  /\ (forall k v, In (k, v) (table_pairs CharBitMap) ->
        glyph_of k = v /\ in_table k = true /\ v <> 0)
  /\ (forall c1 c2, in_table c1 = true -> in_table c2 = true ->
        glyph_of c1 = glyph_of c2 -> c1 = c2).
Proof.
  assert (Hglyph : forall k v, In (k, v) (table_pairs CharBitMap) ->
                     glyph_of k = v).
  { intros k v H. unfold glyph_of.
    rewrite (find_bitmap_pair CharBitMap k v CharBitMap_keys_distinct H).
    reflexivity. }
  split; [exact find_bitmap_pair|].
  split; [exact CharBitMap_keys_distinct|]. split.
  - intros k v H. split; [apply Hglyph, H|].
    split; [apply in_table_In, (table_pairs_keys _ k v H)|].
    pose proof CharBitMap_glyphs_bytes as Hb.
    rewrite forallb_forall in Hb. specialize (Hb (k, v) H). cbn [snd] in Hb.
    apply andb_true_iff in Hb. destruct Hb as [_ Hb].
    apply negb_true_iff, Z.eqb_neq in Hb. exact Hb.
  - intros c1 c2 H1 H2 E.
    apply in_table_In, table_keys_pairs in H1, H2.
    destruct H1 as [v1 H1], H2 as [v2 H2].
    rewrite (Hglyph c1 v1 H1), (Hglyph c2 v2 H2) in E. subst v2.
    apply (values_injective _ c1 c2 v1 CharBitMap_glyphs_distinct H1 H2).
Qed.

Lemma glyph_lookup_witness :
  glyph_of (code "7") = 0xF8.
Proof.
  apply (proj1 (proj2 (proj2 glyph_lookup)) (code "7") 0xF8).
  vm_compute. tauto.
Defined.

(** X10.  For every value from 0 to 9999, [sprintf] with [%.4d] followed
    by [SetupDigits] fills the whole 4-byte buffer, whatever it held, with
    the glyphs of the four decimal digits; reading the glyphs back gives
    the value, so that different values never show as the same display
    content. *)
Theorem rendering_round_trip (n : Z) (buf : list Z) :
  0 <= n <= 9999 -> List.length buf = 4%nat ->
  sprintf_displayString n = Some (format_4d n)
  /\ SetupDigits (format_4d n) buf = Some (rendering n)
  /\ List.length (rendering n) = 4%nat
  /\ number_of_glyphs (rendering n) = n
  /\ (forall m, 0 <= m <= 9999 -> rendering m = rendering n -> m = n).
Proof.
  intros Hn Hlen.
  destruct (renders_four_digits n Hn) as (Hfmt & Hfour & Hnum).
  split; [exact Hfmt|]. split.
  { rewrite SetupDigits_fits by lia.
    rewrite Hfour, skipn_all2 by lia. rewrite app_nil_r. reflexivity. }
  split; [unfold rendering; rewrite length_map; exact Hfour|].
  split; [exact Hnum|].
  intros m Hm E. destruct (renders_four_digits m Hm) as (_ & _ & Hnum').
  rewrite <- Hnum, <- Hnum', E. reflexivity.
Qed.

Lemma rendering_round_trip_witness :
  SetupDigits (format_4d 42) [1; 2; 3; 4] = Some (rendering 42)
  /\ number_of_glyphs (rendering 42) = 42.
Proof.
  destruct (rendering_round_trip 42 [1; 2; 3; 4]) as (_ & H1 & _ & H2 & _);
    [lia|reflexivity|].
  split; [exact H1|exact H2].
Defined.

(** * Further properties of the shift registers *)

Lemma all_from_spec (check : Z -> bool) (n : nat) :
  forall c, all_from check n c = true ->
  forall x, c <= x < c + Z.of_nat n -> check x = true.
Proof.
  induction n as [|n IH]; intros c H x Hx; [lia|].
  cbn [all_from] in H. apply andb_true_iff in H. destruct H as [H1 H2].
  destruct (Z.eq_dec x c) as [->|Hne]; [exact H1|].
  apply (IH (c + 1) H2). lia.
Qed.

Lemma byte_of_bits_of (c : Z) :
  is_byte c = true -> byte_of_bits (bits_of c) = c.
Proof.
  unfold is_byte. rewrite andb_true_iff, Z.leb_le, Z.ltb_lt. intros H.
  apply Z.eqb_eq.
  apply (all_from_spec (fun c => byte_of_bits (bits_of c) =? c) 256 0);
    [vm_compute; reflexivity|lia].
Qed.

Lemma drive_app (r : registers) (t1 t2 : list (Z * bool)) :
  drive r (t1 ++ t2) = drive (drive r t1) t2.
Proof. apply fold_left_app. Qed.

(** One bit on the data line followed by a clock pulse. *)
Lemma drive_pulse (r : registers) (b : bool) :
  drive r [(DIO, b); (SCLK, LOW); (SCLK, HIGH)]
  = mkRegisters b HIGH (rclk_level r) (clocked r ++ [b]) (latched r).
Proof. destruct r. reflexivity. Qed.

Lemma drive_pulses (bits : list bool) :
  forall r, bits <> [] ->
  drive r (flat_map (fun b => [(DIO, b); (SCLK, LOW); (SCLK, HIGH)]) bits)
  = mkRegisters (last bits LOW) HIGH (rclk_level r) (clocked r ++ bits)
                (latched r).
Proof.
  induction bits as [|b bits IH]; intros r Hne; [congruence|].
  cbn [flat_map]. rewrite drive_app, drive_pulse.
  destruct bits as [|b' bits].
  - reflexivity.
  - rewrite IH by discriminate.
    cbn [rclk_level clocked latched]. rewrite <- app_assoc. reflexivity.
Qed.

(** The registers after [ShiftToDisplay]: the eight bits are shifted in,
    whatever the levels of the lines were. *)
Lemma drive_ShiftToDisplay (r : registers) (c : Z) :
  is_byte c = true ->
  drive r (ShiftToDisplay c)
  = mkRegisters (Z.testbit c 0) HIGH (rclk_level r)
                (clocked r ++ bits_of c) (latched r).
Proof.
  intros Hc. rewrite (ShiftToDisplay_bits c Hc).
  change (serial_bits c)
    with (flat_map (fun b => [(DIO, b); (SCLK, LOW); (SCLK, HIGH)])
                   (bits_of c)).
  rewrite drive_pulses by discriminate. reflexivity.
Qed.

(** X11.  [ShiftToDisplay] clocks the eight bits of its argument into
    the shift registers, most significant bit first, whatever the levels
    of the three lines were before; the byte can be read back from the
    bits received.  Nothing is latched, the latch line is not touched,
    and the call makes 24 pin writes. *)
Theorem ShiftToDisplay_received (c : Z) (r : registers) :
  is_byte c = true ->
  clocked (drive r (ShiftToDisplay c)) = clocked r ++ bits_of c
  /\ byte_of_bits (bits_of c) = c
  /\ latched (drive r (ShiftToDisplay c)) = latched r
  /\ rclk_level (drive r (ShiftToDisplay c)) = rclk_level r
  /\ List.length (ShiftToDisplay c) = 24%nat.
Proof.
  intros Hc. rewrite (drive_ShiftToDisplay r c Hc).
  cbn [clocked latched rclk_level].
  repeat split; try reflexivity. apply byte_of_bits_of, Hc.
Qed.

Lemma ShiftToDisplay_received_witness :
  clocked (drive (mkRegisters LOW HIGH HIGH [] []) (ShiftToDisplay 0xC0))
  = [] ++ bits_of 0xC0.
Proof.
  apply (ShiftToDisplay_received 0xC0 (mkRegisters LOW HIGH HIGH [] [])).
  reflexivity.
Defined.

Lemma lastn_app {A : Type} (l1 l2 : list A) (n : nat) :
  List.length l2 = n -> lastn n (l1 ++ l2) = l2.
Proof.
  intros H. unfold lastn. rewrite length_app, H.
  replace (List.length l1 + n - n)%nat with (List.length l1) by lia.
  rewrite skipn_app, skipn_all, Nat.sub_diag. reflexivity.
Qed.

Lemma digit_select_one_hot (pos : Z) : In (digit_select pos) [1; 2; 4; 8].
Proof.
  unfold digit_select.
  destruct pos as [|p|p]; cbn [In]; try tauto.
  destruct p as [[p|p|]|[p|[p|p|]|]|]; tauto.
Qed.

(** The registers after [DisplayDigitBitmap]: sixteen bits are shifted in
    and shown as one word, whatever the levels of the lines were. *)
Lemma drive_DisplayDigitBitmap (bm pos : Z) (r : registers) :
  is_byte bm = true ->
  drive r (DisplayDigitBitmap bm pos)
  = mkRegisters (Z.testbit (digit_select pos) 0) HIGH HIGH
                (clocked r ++ bits_of bm ++ bits_of (digit_select pos))
                (latched r ++ [word_of bm (digit_select pos)]).
Proof.
  intros Hbm.
  pose proof (digit_select_one_hot pos) as Hsel.
  assert (Hsb : is_byte (digit_select pos) = true).
  { cbn [In] in Hsel. destruct Hsel as [<-|[<-|[<-|[<-|[]]]]]; reflexivity. }
  unfold DisplayDigitBitmap. rewrite !drive_app.
  rewrite (drive_ShiftToDisplay _ bm Hbm).
  rewrite (drive_ShiftToDisplay _ (digit_select pos) Hsb).
  destruct r as [d s l c w]. unfold drive.
  cbn [fold_left registers_step].
  change (RCLK =? DIO) with false. change (RCLK =? SCLK) with false.
  change (RCLK =? RCLK) with true. cbv iota.
  cbn [andb negb dio_level sclk_level rclk_level clocked latched LOW HIGH].
  rewrite <- app_assoc. f_equal. f_equal. f_equal.
  apply lastn_app. reflexivity.
Qed.



Lemma pins_DisplayDigits (sk : sketch) :
  pins (DisplayDigits sk)
  = pins sk ++ DisplayDigitBitmap
                 (nth (Z.to_nat (position sk)) (DisplayBM sk) 0)
                 (4 - position sk).
Proof. reflexivity. Qed.

(** The word one call of [DisplayDigits] shows. *)
Lemma DisplayDigits_word (sk : sketch) (r : registers) (b0 b1 b2 b3 : Z) :
  DisplayBM sk = [b0; b1; b2; b3] ->
  forallb is_byte [b0; b1; b2; b3] = true ->
  latched (drive r (DisplayDigitBitmap
                      (nth (Z.to_nat (position sk)) (DisplayBM sk) 0)
                      (4 - position sk)))
  = latched r ++ [nth (Z.to_nat (position sk)) (refresh_words b0 b1 b2 b3) []].
Proof.
  intros Hbm Hb. rewrite Hbm.
  cbn [forallb] in Hb. rewrite !andb_true_iff in Hb.
  destruct Hb as (H0 & H1 & H2 & H3 & _).
  assert (Hpos : 0 <= position sk < 4)
    by (unfold position; apply Z.mod_pos_bound; lia).
  assert (position sk = 0 \/ position sk = 1 \/ position sk = 2
          \/ position sk = 3) as [E|[E|[E|E]]] by lia;
    rewrite E; cbn [Z.to_nat Pos.to_nat Pos.iter_op Nat.add nth];
    rewrite drive_DisplayDigitBitmap by assumption; reflexivity.
Qed.

(** X13.  Four consecutive calls of [DisplayDigits], from any value of
    the cursor, make the registers show the four entries of the buffer,
    each once and each with the select byte of its own digit (entry 0 with
    0x08, entry 3 with 0x01); the buffer is left as it is. *)
Theorem DisplayDigits_shows_buffer (sk : sketch) (r : registers)
        (b0 b1 b2 b3 : Z) :
  DisplayBM sk = [b0; b1; b2; b3] ->
  forallb is_byte [b0; b1; b2; b3] = true ->
  exists trace words,
    pins (Nat.iter 4 DisplayDigits sk) = pins sk ++ trace
    /\ latched (drive r trace) = latched r ++ words
    /\ Permutation words (refresh_words b0 b1 b2 b3)
    /\ DisplayBM (Nat.iter 4 DisplayDigits sk) = DisplayBM sk.
Proof.
  intros Hbm Hb.
  set (sk1 := DisplayDigits sk). set (sk2 := DisplayDigits sk1).
  set (sk3 := DisplayDigits sk2).
  set (D := fun s => DisplayDigitBitmap
                       (nth (Z.to_nat (position s)) (DisplayBM s) 0)
                       (4 - position s)).
  set (W := fun s => nth (Z.to_nat (position s))
                         (refresh_words b0 b1 b2 b3) []).
  exists (D sk ++ D sk1 ++ D sk2 ++ D sk3), [W sk; W sk1; W sk2; W sk3].
  split.
  { change (Nat.iter 4 DisplayDigits sk) with (DisplayDigits sk3).
    rewrite (pins_DisplayDigits sk3). unfold sk3.
    rewrite (pins_DisplayDigits sk2). unfold sk2.
    rewrite (pins_DisplayDigits sk1). unfold sk1.
    rewrite (pins_DisplayDigits sk). rewrite <- !app_assoc. reflexivity. }
  split.
  { rewrite !drive_app. unfold D.
    rewrite (DisplayDigits_word sk3 _ b0 b1 b2 b3 Hbm Hb).
    rewrite (DisplayDigits_word sk2 _ b0 b1 b2 b3 Hbm Hb).
    rewrite (DisplayDigits_word sk1 _ b0 b1 b2 b3 Hbm Hb).
    rewrite (DisplayDigits_word sk _ b0 b1 b2 b3 Hbm Hb).
    rewrite <- !app_assoc. reflexivity. }
  split; [|reflexivity].
  unfold W, sk3, sk2, sk1. rewrite !position_DisplayDigits.
  assert (Hpos : 0 <= position sk < 4)
    by (unfold position; apply Z.mod_pos_bound; lia).
  unfold refresh_words.
  assert (position sk = 0 \/ position sk = 1 \/ position sk = 2
          \/ position sk = 3) as [E|[E|[E|E]]] by lia;
    rewrite E; cbn [Z.to_nat Pos.to_nat Pos.iter_op Nat.add nth Z.add Z.modulo].
  - apply Permutation_refl.
  - apply (Permutation_app_comm [_; _; _] [_]).
  - apply (Permutation_app_comm [_; _] [_; _]).
  - apply (Permutation_app_comm [_] [_; _; _]).
Qed.

Lemma DisplayDigits_shows_buffer_witness :
  exists trace words,
    pins (Nat.iter 4 DisplayDigits
            (mkSketch dashes [0; 0; 0; 0; 0] 0 0 0 2 EmptyString []))
    = [] ++ trace
    /\ latched (drive (mkRegisters LOW LOW LOW [] []) trace) = [] ++ words
    /\ Permutation words (refresh_words 0xbf 0xbf 0xbf 0xbf).
Proof.
  destruct (DisplayDigits_shows_buffer
              (mkSketch dashes [0; 0; 0; 0; 0] 0 0 0 2 EmptyString [])
              (mkRegisters LOW LOW LOW [] []) 0xbf 0xbf 0xbf 0xbf
              eq_refl eq_refl)
    as (trace & words & H1 & H2 & H3 & _).
  exists trace, words. split; [exact H1|]. split; [exact H2|exact H3].
Defined.

(** * Further properties of the main loop *)

Lemma five_digits_table :
  all_from overflows (Z.to_nat (Avr.INT_MAX - 9999)) 10000 = true.
Proof. vm_compute. reflexivity. Qed.

(** [sprintf] overruns [displayString] for every [int] above 9999. *)
Lemma sprintf_five_digits (rpm : Z) :
  9999 < rpm <= Avr.INT_MAX -> sprintf_displayString rpm = None.
Proof.
  intros H.
  pose proof (all_from_spec overflows _ 10000 five_digits_table rpm) as Ht.
  unfold overflows in Ht.
  destruct (sprintf_displayString rpm); [|reflexivity].
  assert (false = true); [|discriminate].
  apply Ht. unfold Avr.INT_MAX in *. change (2 ^ 15 - 1) with 32767 in *. lia.
Qed.

Lemma loop_body_unchanged (curTime : Z) (sk : sketch) :
  calculateRPM curTime (timestamps sk) = Some (oldRpm sk) ->
  loop_body curTime sk = Some (DisplayDigits sk).
Proof.
  intros H. unfold loop_body. rewrite H. cbn [bind].
  rewrite Z.eqb_refl. reflexivity.
Qed.

Lemma loop_body_changed (curTime : Z) (sk : sketch) (rpm : Z) :
  calculateRPM curTime (timestamps sk) = Some rpm ->
  rpm <> oldRpm sk -> List.length (DisplayBM sk) = 4%nat ->
  loop_body curTime sk
  = if rpm <=? 9999 then Some (DisplayDigits (refreshed rpm sk)) else None.
Proof.
  intros Hc Hne Hlen. pose proof (calculateRPM_int _ _ _ Hc) as Hr.
  unfold loop_body. rewrite Hc. cbn [bind].
  destruct (Z.eqb_spec rpm (oldRpm sk)); [contradiction|]. cbn [negb].
  destruct (Z.leb_spec rpm 9999) as [Hsmall|Hlarge].
  - destruct (renders_four_digits rpm ltac:(lia)) as (Hfmt & Hfour & _).
    rewrite Hfmt. cbn [bind].
    cbn [Serial_println Serial_print set_oldRpm DisplayBM].
    rewrite SetupDigits_fits by lia.
    rewrite Hfour, skipn_all2 by lia. rewrite app_nil_r. reflexivity.
  - rewrite sprintf_five_digits by lia. reflexivity.
Qed.

(** [Serial.println] writes an [int] from 0 on as its decimal digits. *)
Lemma prints_decimal_table :
  all_from prints_decimal (Z.to_nat (Avr.INT_MAX + 1)) 0 = true.
Proof. vm_compute. reflexivity. Qed.

Lemma print_int_decimal_text (n : Z) :
  0 <= n <= Avr.INT_MAX -> print_int n = decimal_text n.
Proof.
  intros H. apply String.eqb_eq.
  apply (all_from_spec prints_decimal _ 0 prints_decimal_table n).
  unfold Avr.INT_MAX in *. change (2 ^ 15 - 1) with 32767 in *. lia.
Qed.

(** C7.  Every pass of the main loop with the 4-byte buffer falls under
    one of these cases.  If [calculateRPM] is undefined, or returns a
    value that differs from [oldRpm] and exceeds 9999, the pass is
    undefined.  In every other case the pass completes: when the value
    equals [oldRpm], buffer, console and [oldRpm] stay as they are; when
    it differs, [SetupDigits] renders the buffer anew from the text of
    [sprintf], the glyphs of the buffer read back as the value, exactly
    one line, "rpm: " followed by the decimal digits of the value and the
    line end, is appended to the console, and the value is recorded in
    [oldRpm].  Between passes the buffer shows [oldRpm] (or the dashes of
    [setup]), so that the content of the buffer changes exactly when the
    value does. *)
Theorem loop_body_debounce (curTime : Z) (sk : sketch) :
  List.length (DisplayBM sk) = 4%nat ->
  (calculateRPM curTime (timestamps sk) = None ->
   loop_body curTime sk = None)
  /\ forall rpm,
       calculateRPM curTime (timestamps sk) = Some rpm ->
       (rpm <> oldRpm sk -> 9999 < rpm -> loop_body curTime sk = None)
       /\ (rpm = oldRpm sk \/ rpm <= 9999 ->
           exists sk',
             loop_body curTime sk = Some sk'
             /\ (rpm = oldRpm sk ->
                 DisplayBM sk' = DisplayBM sk
                 /\ serial sk' = serial sk
                 /\ oldRpm sk' = oldRpm sk)
             /\ (rpm <> oldRpm sk ->
                 SetupDigits (format_4d rpm) (DisplayBM sk)
                 = Some (DisplayBM sk')
                 /\ DisplayBM sk' = rendering rpm
                 /\ number_of_glyphs (DisplayBM sk') = rpm
                 /\ serial sk'
                    = (serial sk ++ "rpm: " ++ decimal_text rpm ++ CRLF)%string
                 /\ oldRpm sk' = rpm)
             /\ (shows_oldRpm sk ->
                 (DisplayBM sk' <> DisplayBM sk <-> rpm <> oldRpm sk)
                 /\ shows_oldRpm sk')).
Proof.
  intros Hlen. split.
  { intros Hc. unfold loop_body. rewrite Hc. reflexivity. }
  intros rpm Hc. pose proof (calculateRPM_int _ _ _ Hc) as Hint. split.
  { intros Hne Hbig. rewrite (loop_body_changed curTime sk rpm Hc Hne Hlen).
    destruct (Z.leb_spec rpm 9999); [lia|reflexivity]. }
  intros Hrange.
  destruct (Z.eq_dec rpm (oldRpm sk)) as [Heq|Hne].
  - subst rpm. exists (DisplayDigits sk).
    split; [apply loop_body_unchanged, Hc|].
    split; [intros _; repeat split; reflexivity|].
    split; [intros Hn; contradiction|].
    intros Hshow. split; [|exact Hshow].
    cbn [DisplayDigits DisplayBM]. tauto.
  - destruct Hrange as [Heq|Hsmall]; [contradiction|].
    assert (Hr : 0 <= rpm <= 9999) by lia.
    destruct (renders_four_digits rpm Hr) as (Hfmt & Hfour & Hnum).
    exists (DisplayDigits (refreshed rpm sk)). split.
    { rewrite (loop_body_changed curTime sk rpm Hc Hne Hlen).
      destruct (Z.leb_spec rpm 9999); [reflexivity|lia]. }
    unfold refreshed.
    cbn [DisplayDigits set_DisplayBM Serial_println Serial_print set_oldRpm
         DisplayBM serial oldRpm].
    split; [intros Hn; contradiction|]. split.
    { intros _. split.
      { rewrite SetupDigits_fits by lia.
        rewrite Hfour, skipn_all2 by lia. rewrite app_nil_r. reflexivity. }
      split; [reflexivity|]. split; [exact Hnum|]. split; [|reflexivity].
      rewrite (print_int_decimal_text rpm) by lia.
      rewrite string_app_assoc. reflexivity. }
    intros Hshow. split.
    + split; [intros _; exact Hne|]. intros _ Hsame.
      destruct Hshow as [[Hold Hro]|Hdash].
      * apply Hne. rewrite <- Hnum, Hsame, Hold.
        apply (renders_four_digits (oldRpm sk) Hro).
      * rewrite Hdash in Hsame.
        assert (E : number_of_glyphs (rendering rpm) = number_of_glyphs dashes)
          by (rewrite Hsame; reflexivity).
        rewrite Hnum in E. vm_compute in E. lia.
    + left. split; [reflexivity|exact Hr].
Qed.

Lemma loop_body_debounce_witness :
  exists sk',
    loop_body 3000 (mkSketch dashes [1000; 1500; 2000; 2500; 3000]
                             0 3000 0 0 EmptyString [])
    = Some sk'
    /\ DisplayBM sk' = rendering 120
    /\ serial sk' = ("rpm: 120" ++ CRLF)%string.
Proof.
  destruct (loop_body_debounce
              3000 (mkSketch dashes [1000; 1500; 2000; 2500; 3000]
                             0 3000 0 0 EmptyString []) eq_refl)
    as [_ Hsome].
  destruct (Hsome 120 ltac:(vm_compute; reflexivity)) as [_ Hdef].
  destruct (Hdef ltac:(right; lia)) as (sk' & Hrun & _ & Hnew & _).
  exists sk'. split; [exact Hrun|].
  destruct Hnew as (_ & Hbm & _ & Hser & _); [cbn; lia|].
  split; [exact Hbm|exact Hser].
Defined.

(** Not every pass is as the claim has it.  The first pass after
    power-on, on the ring of zeros, has no defined outcome, whatever the
    clock shows during the first [MAX_STAMP_AGE]; and a pass in which the
    value has changed to 12000 (two stamps 5 ms apart) neither renders
    the buffer nor ends with one more console line: [sprintf] writes past
    the end of [displayString]. *)
Lemma loop_body_undefined_passes :
  boot = Some (Serial_println loop_banner (set_DisplayBM dashes power_on))
  /\ calculateRPM 0 [0; 0; 0; 0; 0] = None
  /\ loop_body 0 (Serial_println loop_banner (set_DisplayBM dashes power_on))
     = None
  /\ loop_body 5999 (Serial_println loop_banner
                       (set_DisplayBM dashes power_on))
     = None
  /\ calculateRPM 10000 [9000; 9005; 0; 0; 0] = Some 12000
  /\ 12000 <> oldRpm (mkSketch dashes [9000; 9005; 0; 0; 0]
                               0 9005 0 0 EmptyString [])
  /\ sprintf_displayString 12000 = None
  /\ loop_body 10000 (mkSketch dashes [9000; 9005; 0; 0; 0]
                               0 9005 0 0 EmptyString []) = None.
Proof.
  split; [reflexivity|].
  split; [vm_compute; reflexivity|].
  split; [vm_compute; reflexivity|].
  split; [vm_compute; reflexivity|].
  split; [vm_compute; reflexivity|].
  split; [cbn [oldRpm]; lia|].
  split; vm_compute; reflexivity.
Qed.

(** X14.  With a 4-byte display buffer, a pass of the main loop is
    undefined in exactly two cases: [calculateRPM] is undefined, or it
    returns a value that differs from [oldRpm] and exceeds 9999, for which
    [sprintf] writes past the end of [displayString]. *)
Theorem loop_body_undefined_iff (curTime : Z) (sk : sketch) :
  List.length (DisplayBM sk) = 4%nat ->
  loop_body curTime sk = None
  <-> calculateRPM curTime (timestamps sk) = None
      \/ exists rpm,
           calculateRPM curTime (timestamps sk) = Some rpm
           /\ rpm <> oldRpm sk /\ 9999 < rpm.
Proof.
  intros Hlen.
  destruct (calculateRPM curTime (timestamps sk)) as [rpm|] eqn:Hc.
  - destruct (Z.eq_dec rpm (oldRpm sk)) as [Heq|Hne].
    + subst rpm. rewrite (loop_body_unchanged curTime sk Hc).
      split; [discriminate|].
      intros [H|(rpm & [= <-] & Hne & _)]; [discriminate|contradiction].
    + rewrite (loop_body_changed curTime sk rpm Hc Hne Hlen).
      destruct (Z.leb_spec rpm 9999) as [Hsmall|Hlarge].
      * split; [discriminate|].
        intros [H|(rpm' & [= <-] & _ & Hbig)]; [discriminate|lia].
      * split; [|reflexivity]. intros _. right. exists rpm.
        split; [reflexivity|]. split; [exact Hne|assumption].
  - split; [intros _; left; reflexivity|]. intros _.
    unfold loop_body. rewrite Hc. reflexivity.
Qed.

Lemma loop_body_undefined_iff_witness :
  loop_body 10000 (mkSketch dashes [9000; 9005; 0; 0; 0]
                            0 9005 0 0 EmptyString []) = None.
Proof.
  apply (proj2 (loop_body_undefined_iff
                  10000 (mkSketch dashes [9000; 9005; 0; 0; 0]
                                  0 9005 0 0 EmptyString []) eq_refl)).
  right. exists 12000. split; [vm_compute; reflexivity|].
  cbn [oldRpm]. lia.
Defined.

Lemma DisplayDigitBitmap_length (bm pos : Z) :
  List.length (DisplayDigitBitmap bm pos) = 50%nat.
Proof. reflexivity. Qed.

(** A pass ends with a call of [DisplayDigits], on a state that differs
    from the one at its start in the buffer, [oldRpm] and the console at
    most. *)
Lemma loop_body_shape (curTime : Z) (sk sk' : sketch) :
  loop_body curTime sk = Some sk' ->
  exists sk1,
    sk' = DisplayDigits sk1
    /\ timestamps sk1 = timestamps sk
    /\ curTimestampPos sk1 = curTimestampPos sk
    /\ lastStamp sk1 = lastStamp sk
    /\ __curCharacter sk1 = __curCharacter sk
    /\ pins sk1 = pins sk.
Proof.
  unfold loop_body.
  destruct (calculateRPM curTime (timestamps sk)) as [rpm|]; [|discriminate].
  cbn [bind].
  destruct (negb (rpm =? oldRpm sk)).
  - destruct (sprintf_displayString rpm) as [text|]; [|discriminate].
    cbn [bind].
    destruct (SetupDigits text _) as [bm|]; [|discriminate].
    cbn [bind]. intros [= <-]. eexists. split; [reflexivity|].
    repeat split; reflexivity.
  - cbn [bind]. intros [= <-]. exists sk. repeat split; reflexivity.
Qed.

Lemma loop_body_pins (curTime : Z) (sk sk' : sketch) :
  loop_body curTime sk = Some sk' ->
  List.length (pins sk') = (List.length (pins sk) + 50)%nat.
Proof.
  intros H. destruct (loop_body_shape curTime sk sk' H)
    as (sk1 & -> & _ & _ & _ & _ & Hp).
  rewrite pins_DisplayDigits, length_app, DisplayDigitBitmap_length, Hp.
  reflexivity.
Qed.

(** X15.  A pass of the main loop never writes the ring, the ring cursor
    or [lastStamp], the variables of the interrupt handler.  It advances
    the display cursor by one modulo 256 and makes exactly the 50 pin
    writes of one call of [DisplayDigitBitmap], for the entry under the
    cursor of the buffer as this pass leaves it. *)
Theorem loop_body_frame (curTime : Z) (sk sk' : sketch) :
  loop_body curTime sk = Some sk' ->
  timestamps sk' = timestamps sk
  /\ curTimestampPos sk' = curTimestampPos sk
  /\ lastStamp sk' = lastStamp sk
  /\ __curCharacter sk' = (__curCharacter sk + 1) mod 256
  /\ pins sk'
     = pins sk ++ DisplayDigitBitmap
                    (nth (Z.to_nat (position sk)) (DisplayBM sk') 0)
                    (4 - position sk)
  /\ List.length (pins sk') = (List.length (pins sk) + 50)%nat.
Proof.
  intros H. pose proof (loop_body_pins curTime sk sk' H) as Hlen.
  destruct (loop_body_shape curTime sk sk' H)
    as (sk1 & -> & H1 & H2 & H3 & H4 & H5).
  rewrite pins_DisplayDigits. unfold position.
  cbn [DisplayDigits timestamps curTimestampPos lastStamp __curCharacter
       DisplayBM].
  rewrite H1, H2, H3, H4, H5.
  repeat split; try reflexivity.
  rewrite pins_DisplayDigits, length_app, DisplayDigitBitmap_length, H5 in Hlen.
  rewrite length_app, DisplayDigitBitmap_length. reflexivity.
Qed.

Lemma loop_body_frame_witness :
  exists sk',
    loop_body 3000 (mkSketch dashes [1000; 1500; 2000; 2500; 3000]
                             0 3000 0 0 EmptyString []) = Some sk'
    /\ timestamps sk' = [1000; 1500; 2000; 2500; 3000]
    /\ List.length (pins sk') = 50%nat.
Proof.
  assert (E : exists sk',
             loop_body 3000 (mkSketch dashes [1000; 1500; 2000; 2500; 3000]
                                      0 3000 0 0 EmptyString []) = Some sk')
    by (vm_compute; eexists; reflexivity).
  destruct E as [sk' E]. exists sk'. split; [exact E|].
  destruct (loop_body_frame _ _ _ E) as (H1 & _ & _ & _ & _ & H2).
  split; [exact H1|exact H2].
Defined.

(** * The sketch as a whole *)
















